(** * Shallow embedding of menpofit/sdm/fitter.py (SupervisedDescentFitter)

    The orchestrator [_train] of the supervised-descent fitter is modelled as
    a state-and-error monad over:
    - the mutable fields of the fitter ([reference_shape],
      [n_perturbations], [algorithms]);
    - a heap of image objects (Python objects are shared by reference, so an
      image is a pointer into the heap and attaching a landmark group writes
      the heap);
    - a log of the observable calls and warnings (warnings, feature
      computations, image scalings, perturbation-strategy calls, stage
      [train]/[increment] calls).
    The external collaborators (menpo images and transforms, feature
    functions, the regression stages) are abstract: they are the fields of
    the record [World]. *)

From Stdlib Require Import List String Ascii Arith Bool Lia DecimalNat.
Import ListNotations.
Open Scope string_scope.
Open Scope list_scope.

(** A menpo image: its pixel data and its landmark manager, a Python dict
    from group labels to point clouds (kept in insertion order). *)
Record image (P S : Type) := mkImage {
  pixels : P;
  landmarks : list (string * S)
}.
Arguments mkImage {P S}.
Arguments pixels {P S}.
Arguments landmarks {P S}.

(** The collaborators of the fitter. Shapes and bounding boxes are both
    menpo point clouds ([shape_t]); scale factors are [scale_t]; feature
    functions are compared by identity, so they are named by a [nat]. *)
Record World := {
  shape_t : Type;
  pix_t : Type;
  scale_t : Type;
  stage_t : Type;
  (** [PointCloud.bounding_box] *)
  bounding_box : shape_t -> shape_t;
  (** [menpofit.builder.compute_reference_shape(shapes, diagonal)] *)
  compute_reference_shape : list shape_t -> option nat -> shape_t;
  (** [Image.rescale_to_pointcloud(reference_shape, group)], given the
      image's shape under [group]; returns a new image. *)
  rescale_to_pointcloud : shape_t -> shape_t -> image pix_t shape_t -> image pix_t shape_t;
  (** the holistic feature function named by a [nat], applied to one image *)
  apply_feature : nat -> image pix_t shape_t -> image pix_t shape_t;
  (** [Image.rescale(scale)], applied to one image *)
  rescale_image : scale_t -> image pix_t shape_t -> image pix_t shape_t;
  (** [scale != 1] *)
  scale_neq_one : scale_t -> bool;
  (** [scales[j + 1] / scales[j]] *)
  scale_div : scale_t -> scale_t -> scale_t;
  (** [Scale(s, n_dims=2).apply_inplace(shape)], on the shape's value *)
  scale_apply : scale_t -> shape_t -> shape_t;
  (** [menpofit.fitter.align_shape_with_bounding_box(shape, bbox)] *)
  align_shape_with_bounding_box : shape_t -> shape_t -> shape_t;
  (** [algorithm.train] and [algorithm.increment]: new stage state and the
      updated current shapes *)
  stage_train : stage_t -> list (image pix_t shape_t) -> list shape_t ->
                list (list shape_t) -> stage_t * list (list shape_t);
  stage_increment : stage_t -> list (image pix_t shape_t) -> list shape_t ->
                    list (list shape_t) -> stage_t * list (list shape_t)
}.

(** ** Strings: [str(j)] and the wildcard match of [keys_matching] *)

Fixpoint uint_to_string (d : Decimal.uint) : string :=
  match d with
  | Decimal.Nil => ""
  | Decimal.D0 d => String "0" (uint_to_string d)
  | Decimal.D1 d => String "1" (uint_to_string d)
  | Decimal.D2 d => String "2" (uint_to_string d)
  | Decimal.D3 d => String "3" (uint_to_string d)
  | Decimal.D4 d => String "4" (uint_to_string d)
  | Decimal.D5 d => String "5" (uint_to_string d)
  | Decimal.D6 d => String "6" (uint_to_string d)
  | Decimal.D7 d => String "7" (uint_to_string d)
  | Decimal.D8 d => String "8" (uint_to_string d)
  | Decimal.D9 d => String "9" (uint_to_string d)
  end.

(** [str(n)] for a Python int [n >= 0] *)
Definition str_of_nat (n : nat) : string := uint_to_string (Nat.to_uint n).

(** [fnmatch(name, pattern)] for patterns made of [*], [?] and literal
    characters (bracket classes are read as literals). *)
Fixpoint fnmatch (pat name : string) : bool :=
  match pat with
  | EmptyString => match name with EmptyString => true | _ => false end
  | String c pat' =>
      if Ascii.eqb c "*"%char then
        (fix star (s : string) : bool :=
           fnmatch pat' s || match s with
                            | EmptyString => false
                            | String _ s' => star s'
                            end) name
      else if Ascii.eqb c "?"%char then
        match name with EmptyString => false | String _ n' => fnmatch pat' n' end
      else
        match name with
        | EmptyString => false
        | String c' n' => Ascii.eqb c c' && fnmatch pat' n'
        end
  end.

(** [LandmarkManager.keys_matching(glob)] *)
Definition keys_matching {S : Type} (lms : list (string * S)) (glob : string)
  : list string :=
  filter (fnmatch glob) (map fst lms).

(** [lms[key] = value] on a Python dict: replace in place or append. *)
Fixpoint dict_set {S : Type} (lms : list (string * S)) (k : string) (v : S)
  : list (string * S) :=
  match lms with
  | [] => [(k, v)]
  | (k', v') :: rest =>
      if String.eqb k k' then (k, v) :: rest else (k', v') :: dict_set rest k v
  end.

(** [lms[key]] *)
Fixpoint dict_get {S : Type} (lms : list (string * S)) (k : string) : option S :=
  match lms with
  | [] => None
  | (k', v') :: rest => if String.eqb k k' then Some v' else dict_get rest k
  end.

(** [xs[j] = v] for [j < len(xs)] (Python raises otherwise; every index
    used below is in range). *)
Fixpoint list_set {A : Type} (xs : list A) (j : nat) (v : A) : list A :=
  match xs, j with
  | [], _ => []
  | _ :: xs', 0 => v :: xs'
  | x :: xs', S j' => x :: list_set xs' j' v
  end.

(** ** The fitter *)

Section Fitter.

Variable W : World.

Local Notation Shape := (shape_t W).
Local Notation Img := (image (pix_t W) (shape_t W)).
Local Notation Sc := (scale_t W).
Local Notation Stage := (stage_t W).

(** The configuration fixed by [__init__]. *)
Record config := mkConfig {
  features : list nat;            (* self.features, one per scale *)
  scales : list Sc;               (* self.scales *)
  diagonal : option nat;          (* self.diagonal *)
  perturb_fn : Shape -> Shape -> Shape  (* self._perturb_from_bounding_box *)
}.

Definition n_scales (cfg : config) : nat := List.length (scales cfg).

(** Observable calls and warnings. *)
Inductive event :=
| EWarnRef                                   (* no-reference-shape warning *)
| EWarnPert (old new : nat)                  (* n_perturbations reset warning *)
| ECompRef (shapes : list Shape)             (* compute_reference_shape(shapes, ..) *)
| EPerturb (gt_s bb : Shape)                 (* _perturb_from_bounding_box(gt_s, bb) *)
| EFeat (j : nat)                            (* compute_features(.., features[j]) *)
| EScaleImgs (j : nat)                       (* scale_images(.., scales[j]) *)
| EStage (increment : bool) (j : nat) (imgs : list Img) (gts : list Shape)
         (cur_in cur_out : list (list Shape)). (* algorithms[j].train / .increment *)

Record state := mkState {
  reference_shape : option Shape;
  n_perturbations : nat;
  algorithms : list Stage;
  heap : list Img;
  log : list event
}.

Inductive err := KeyError | IndexError.

Inductive res (A : Type) :=
| Err (e : err) (s : state)
| Ok (a : A) (s : state).
Arguments Err {A}.
Arguments Ok {A}.

Definition M (A : Type) := state -> res A.

Definition ret {A} (a : A) : M A := fun s => Ok a s.
Definition bind {A B} (m : M A) (k : A -> M B) : M B :=
  fun s => match m s with Err e s' => Err e s' | Ok a s' => k a s' end.
Definition raise {A} (e : err) : M A := fun s => Err e s.
Definition get : M state := fun s => Ok s s.
Definition put (s : state) : M unit := fun _ => Ok tt s.

Local Notation "x <- m ;; k" := (bind m (fun x => k))
  (at level 61, m at next level, right associativity).
Local Notation "m ;;; k" := (bind m (fun _ => k))
  (at level 61, right associativity).

Definition emit (e : event) : M unit :=
  fun s => Ok tt (mkState (reference_shape s) (n_perturbations s) (algorithms s)
                          (heap s) (log s ++ [e])).

Definition of_option {A} (e : err) (o : option A) : M A :=
  match o with Some a => ret a | None => raise e end.

(** dereference an image object *)
Definition load (p : nat) : M Img := fun s => of_option IndexError (nth_error (heap s) p) s.

(** allocate a new image object *)
Definition alloc (i : Img) : M nat :=
  fun s => Ok (List.length (heap s))
              (mkState (reference_shape s) (n_perturbations s) (algorithms s)
                       (heap s ++ [i]) (log s)).

(** [i.landmarks[k].lms] *)
Definition lms (i : Img) (k : string) : M Shape := of_option KeyError (dict_get (landmarks i) k).

(** [i.landmarks[k] = v] on the image object [p] *)
Definition set_landmark (p : nat) (k : string) (v : Shape) : M unit :=
  i <- load p ;;
  fun s => Ok tt (mkState (reference_shape s) (n_perturbations s) (algorithms s)
                          (list_set (heap s) p (mkImage (pixels i) (dict_set (landmarks i) k v)))
                          (log s)).

Definition set_reference_shape (r : Shape) : M unit :=
  fun s => Ok tt (mkState (Some r) (n_perturbations s) (algorithms s) (heap s) (log s)).

Definition set_n_perturbations (n : nat) : M unit :=
  fun s => Ok tt (mkState (reference_shape s) n (algorithms s) (heap s) (log s)).

Definition set_algorithm (j : nat) (a : Stage) : M unit :=
  fun s => Ok tt (mkState (reference_shape s) (n_perturbations s) (list_set (algorithms s) j a)
                          (heap s) (log s)).

Fixpoint mapM {A B} (f : A -> M B) (xs : list A) : M (list B) :=
  match xs with
  | [] => ret []
  | x :: xs' => y <- f x ;; ys <- mapM f xs' ;; ret (y :: ys)
  end.

Fixpoint forM_ {A} (xs : list A) (f : A -> M unit) : M unit :=
  match xs with
  | [] => ret tt
  | x :: xs' => f x ;;; forM_ xs' f
  end.

(** [image_batch[0]] *)
Definition first {A} (xs : list A) : M A := of_option IndexError (hd_error xs).

(** *** Lines 86-90: resolve the landmark group.
    Modelled from the spec: [group_labels[0]] is "the first available group
    on the first image" (menpo's landmark manager is not in src/). *)
Definition resolve_group (group : option string) (image_batch : list nat) : M string :=
  match group with
  | Some g => ret g
  | None =>
      p0 <- first image_batch ;;
      i <- load p0 ;;
      k <- first (map fst (landmarks i)) ;;
      ret k
  end.

(** *** Lines 92-103: the reference shape, set once from the first batch. *)
Definition ensure_reference_shape (cfg : config) (batch_size : option nat)
    (group : string) (image_batch : list nat) : M Shape :=
  s <- get ;;
  match reference_shape s with
  | Some r => ret r
  | None =>
      match batch_size with Some _ => emit EWarnRef | None => ret tt end ;;;
      shapes <- mapM (fun p => i <- load p ;; lms i group) image_batch ;;
      emit (ECompRef shapes) ;;;
      let r := compute_reference_shape W shapes (diagonal cfg) in
      set_reference_shape r ;;;
      ret r
  end.

(** *** Lines 105-108: [rescale_images_to_reference_shape].
    Modelled from the spec: [rescale(images, group, reference_shape) ->
    images] (menpofit.builder, not in src/) normalises each image and its
    landmarks to the reference shape and returns per-batch images, which are
    transient and discarded after the batch (spec sections 3 and 5): each is
    a new image object, [i.rescale_to_pointcloud(reference_shape, group)]. *)
Definition rescale_images_to_reference_shape (image_batch : list nat) (group : string)
    (ref : Shape) : M (list nat) :=
  mapM (fun p => i <- load p ;; gt <- lms i group ;;
                 alloc (rescale_to_pointcloud W ref gt i)) image_batch.

(** *** Lines 110-121: the bounding-box group. Without one, the bounding
    box of the ground truth is attached to every image of the batch under
    ['__gt_bb_0'] and the namespace is ['__gt_bb_']. *)
Definition resolve_bb_group (bounding_box_group : option string) (group : string)
    (image_batch : list nat) : M string :=
  match bounding_box_group with
  | None =>
      let bb_group := "__gt_bb_" in
      forM_ image_batch (fun p =>
        i <- load p ;;
        gt_s <- lms i group ;;
        let perturb_bbox_group := (bb_group ++ "0")%string in
        set_landmark p perturb_bbox_group (bounding_box W gt_s)) ;;;
      ret bb_group
  | Some b => ret b
  end.

(** [list(image_batch[0].landmarks.keys_matching('*{}*'.format(bb_group)))] *)
Definition bb_keys (image_batch : list nat) (bb_group : string) : M (list string) :=
  p0 <- first image_batch ;;
  i <- load p0 ;;
  ret (keys_matching (landmarks i) ("*" ++ bb_group ++ "*")%string).

(** ['{}_{}'.format(bb_group, j)] *)
Definition perturb_key (bb_group : string) (j : nat) : string :=
  (bb_group ++ "_" ++ str_of_nat j)%string.

(** Lines 140-147, for one image [p]: [for j in range(1, self.n_perturbations)]. *)
Definition perturb_image (cfg : config) (group bb_group seed_key : string) (p : nat)
    : M unit :=
  s <- get ;;
  forM_ (seq 1 (n_perturbations s - 1)) (fun j =>
    i <- load p ;;
    gt <- lms i group ;;
    let gt_s := bounding_box W gt in
    bb <- lms i seed_key ;;
    let p_s := perturb_fn cfg gt_s bb in
    emit (EPerturb gt_s bb) ;;;
    let perturb_bbox_group := perturb_key bb_group j in
    set_landmark p perturb_bbox_group p_s).

(** *** Lines 123-159: count the boxes, generate perturbations from a single
    seed box or reconcile [n_perturbations], and re-grab the keys. *)
Definition generate_perturbations (cfg : config) (group bb_group : string)
    (image_batch : list nat) : M (list string) :=
  all_bb_keys <- bb_keys image_batch bb_group ;;
  let n_perturbations' := List.length all_bb_keys in
  s <- get ;;
  (if Nat.eqb n_perturbations' 1 then
     match all_bb_keys with
     | seed_key :: _ => forM_ image_batch (perturb_image cfg group bb_group seed_key)
     | [] => ret tt
     end
   else if negb (Nat.eqb n_perturbations' (n_perturbations s)) then
     emit (EWarnPert (n_perturbations s) n_perturbations') ;;;
     set_n_perturbations n_perturbations'
   else ret tt) ;;;
  bb_keys image_batch bb_group.

(** [algorithms[j].train(...)] or [algorithms[j].increment(...)] *)
Definition run_stage (increment : bool) (j : nat) (imgs : list Img) (gts : list Shape)
    (current_shapes : list (list Shape)) : M (list (list Shape)) :=
  s <- get ;;
  alg <- of_option IndexError (nth_error (algorithms s) j) ;;
  let '(alg', out) := if increment then stage_increment W alg imgs gts current_shapes
                      else stage_train W alg imgs gts current_shapes in
  set_algorithm j alg' ;;;
  emit (EStage increment j imgs gts current_shapes out) ;;;
  ret out.

(** *** Lines 161-226: one pass of the scale loop, at scale [j], given the
    feature images and current shapes left by the previous pass. *)
Definition scale_step (cfg : config) (increment : bool) (ref : Shape) (group : string)
    (image_batch : list Img) (all_bb_keys : list string) (j : nat)
    (feature_images : list Img) (current_shapes : list (list Shape))
    : M (list Img * list (list Shape)) :=
  f_j <- of_option IndexError (nth_error (features cfg) j) ;;
  recompute <- (if Nat.eqb j 0 then ret true
                else f_prev <- of_option IndexError (nth_error (features cfg) (j - 1)) ;;
                     ret (negb (Nat.eqb f_j f_prev))) ;;
  feature_images <- (if recompute
                     then emit (EFeat j) ;;; ret (map (apply_feature W f_j) image_batch)
                     else ret feature_images) ;;
  s_j <- of_option IndexError (nth_error (scales cfg) j) ;;
  scaled_images <- (if scale_neq_one W s_j
                    then emit (EScaleImgs j) ;;; ret (map (rescale_image W s_j) feature_images)
                    else ret feature_images) ;;
  scaled_shapes <- mapM (fun i => lms i group) scaled_images ;;
  current_shapes <- (if Nat.eqb j 0 then
                       c_shapes <- mapM (fun i =>
                                    mapM (fun k => bbox <- lms i k ;;
                                                   ret (align_shape_with_bounding_box W ref bbox))
                                         all_bb_keys) scaled_images ;;
                       ret (current_shapes ++ c_shapes)
                     else ret current_shapes) ;;
  current_shapes <- run_stage increment j scaled_images scaled_shapes current_shapes ;;
  current_shapes <- (if negb (Nat.eqb j (n_scales cfg - 1)) then
                       s_next <- of_option IndexError (nth_error (scales cfg) (j + 1)) ;;
                       let transform := scale_apply W (scale_div W s_next s_j) in
                       ret (map (map transform) current_shapes)
                     else ret current_shapes) ;;
  ret (feature_images, current_shapes).

Fixpoint scale_loop (cfg : config) (increment : bool) (ref : Shape) (group : string)
    (image_batch : list Img) (all_bb_keys : list string) (js : list nat)
    (feature_images : list Img) (current_shapes : list (list Shape))
    : M (list (list Shape)) :=
  match js with
  | [] => ret current_shapes
  | j :: js' =>
      r <- scale_step cfg increment ref group image_batch all_bb_keys j
                     feature_images current_shapes ;;
      scale_loop cfg increment ref group image_batch all_bb_keys js' (fst r) (snd r)
  end.

(** *** Lines 78-226: one batch; returns the (resolved) group. *)
Definition train_batch (cfg : config) (group : option string)
    (bounding_box_group : option string) (batch_size : option nat) (increment : bool)
    (image_batch : list nat) : M string :=
  group <- resolve_group group image_batch ;;
  ref <- ensure_reference_shape cfg batch_size group image_batch ;;
  image_batch <- rescale_images_to_reference_shape image_batch group ref ;;
  bb_group <- resolve_bb_group bounding_box_group group image_batch ;;
  all_bb_keys <- generate_perturbations cfg group bb_group image_batch ;;
  imgs <- mapM load image_batch ;;
  scale_loop cfg increment ref group imgs all_bb_keys (seq 0 (n_scales cfg)) [] [] ;;;
  ret group.

(** [for k, image_batch in enumerate(image_batches)]: after the first batch
    the model is incremented; [group] is resolved once. *)
Fixpoint train_batches (cfg : config) (group : option string)
    (bounding_box_group : option string) (batch_size : option nat) (increment : bool)
    (k : nat) (image_batches : list (list nat)) : M unit :=
  match image_batches with
  | [] => ret tt
  | image_batch :: rest =>
      let increment := if Nat.ltb 0 k then true else increment in
      g <- train_batch cfg group bounding_box_group batch_size increment image_batch ;;
      train_batches cfg (Some g) bounding_box_group batch_size increment (S k) rest
  end.

End Fitter.

Arguments Ok {W A}.
Arguments Err {W A}.
Arguments EWarnRef {W}.
Arguments EWarnPert {W}.
Arguments ECompRef {W}.
Arguments EPerturb {W}.
Arguments EFeat {W}.
Arguments EScaleImgs {W}.
Arguments EStage {W}.

Notation "x <- m ;; k" := (bind _ m (fun x => k))
  (at level 61, m at next level, right associativity).
Notation "m ;;; k" := (bind _ m (fun _ => k))
  (at level 61, right associativity).

(** [menpofit.base.batch(images, batch_size)].
    Modelled from the spec: the source is "consumed lazily in fixed-size
    chunks" (menpofit.base is not in src/); a chunk size of 0 yields no
    chunk. *)
Fixpoint chunks {A : Type} (fuel n : nat) (xs : list A) : list (list A) :=
  match fuel with
  | 0 => []
  | S fuel' =>
      match xs with
      | [] => []
      | _ => firstn n xs :: chunks fuel' n (skipn n xs)
      end
  end.

Definition batch {A : Type} (xs : list A) (n : nat) : list (list A) :=
  if Nat.eqb n 0 then [] else chunks (List.length xs) n xs.

(** Lines 71-76 *)
Definition image_batches {A : Type} (images : list A) (batch_size : option nat)
  : list (list A) :=
  match batch_size with
  | Some n => batch images n
  | None => [images]
  end.

(** *** Lines 66-81: [_train] *)
Definition train_impl (W : World) (cfg : config W) (images : list nat)
    (group bounding_box_group : option string) (increment : bool)
    (batch_size : option nat) : M W unit :=
  train_batches W cfg group bounding_box_group batch_size increment 0
    (image_batches images batch_size).

(** *** Lines 23-53: [__init__], on a heap holding the caller's images;
    [setup j] is the stage built for scale [j] by [_setup_algorithms]. *)
Definition SupervisedDescentFitter (W : World) (cfg : config W) (setup : nat -> stage_t W)
    (heap0 : list (image (pix_t W) (shape_t W))) (images : list nat)
    (group bounding_box_group : option string) (reference_shape : option (shape_t W))
    (n_perturbations : nat) (batch_size : option nat) : res W unit :=
  train_impl W cfg images group bounding_box_group false batch_size
    (mkState W reference_shape n_perturbations (map setup (seq 0 (n_scales W cfg))) heap0 []).

(** *** Lines 228-233: [increment] *)
Definition increment (W : World) (cfg : config W) (images : list nat)
    (group bounding_box_group : option string) (batch_size : option nat) : M W unit :=
  train_impl W cfg images group bounding_box_group true batch_size.

(** ** A concrete instance of the collaborators, to run the model.
    Shapes are integers, a bounding box is its shape plus 1000, a stage
    counts its calls and adds 1 to every estimate. *)
From Stdlib Require Import ZArith.

Definition W0 : World := {|
  shape_t := Z;
  pix_t := unit;
  scale_t := Z;
  stage_t := nat;
  bounding_box := fun s => (s + 1000)%Z;
  compute_reference_shape := fun shapes _ => fold_right Z.add 0%Z shapes;
  rescale_to_pointcloud := fun _ _ i => mkImage (pixels i) (landmarks i);
  apply_feature := fun _ i => i;
  rescale_image := fun s i => mkImage (pixels i) (map (fun kv => (fst kv, (s * snd kv)%Z)) (landmarks i));
  scale_neq_one := fun s => negb (Z.eqb s 1);
  scale_div := fun a b => Z.div a b;
  scale_apply := fun r s => (r * s)%Z;
  align_shape_with_bounding_box := fun r b => (r + b)%Z;
  stage_train := fun st _ _ cs => (S st, map (map (fun x => (x + 1)%Z)) cs);
  stage_increment := fun st _ _ cs => (S st, map (map (fun x => (x + 1)%Z)) cs)
|}.

Definition img0 (lms : list (string * Z)) : image unit Z := mkImage tt lms.

Definition cfg0 : config W0 := mkConfig W0 [7; 7] [1%Z; 2%Z] None (fun gt bb => (gt + 10 * bb)%Z).

(** ** Observations on the log *)

(** The calls of the stages, in order: [(increment, j)] for
    [algorithms[j].increment] or [(false, j)] for [algorithms[j].train]. *)
Definition stage_tag {W : World} (e : event W) : list (bool * nat) :=
  match e with EStage inc j _ _ _ _ => [(inc, j)] | _ => [] end.

Definition stage_calls {W : World} (l : list (event W)) : list (bool * nat) :=
  flat_map stage_tag l.

(** The stage calls of one batch over [n] scales *)
Definition stage_row (n : nat) (inc : bool) : list (bool * nat) :=
  map (fun j => (inc, j)) (seq 0 n).

(** The reference-shape events: [None] for the warning, [Some shapes] for
    [compute_reference_shape(shapes, ..)]. *)
Definition ref_tag {W : World} (e : event W) : list (option (list (shape_t W))) :=
  match e with EWarnRef => [None] | ECompRef sh => [Some sh] | _ => [] end.

(** [[i.landmarks[group].lms for i in image_batch]] on a heap, as a value *)
Fixpoint gt_shapes (W : World) (h : list (image (pix_t W) (shape_t W))) (group : string)
    (ps : list nat) : option (list (shape_t W)) :=
  match ps with
  | [] => Some []
  | p :: ps' =>
      match nth_error h p with
      | None => None
      | Some i =>
          match dict_get (landmarks i) group with
          | None => None
          | Some sh => option_map (cons sh) (gt_shapes W h group ps')
          end
      end
  end.

(** [h[p].landmarks[k].lms], as a value *)
Definition lm_of {W : World} (h : list (image (pix_t W) (shape_t W))) (p : nat) (k : string)
  : option (shape_t W) :=
  match nth_error h p with Some i => dict_get (landmarks i) k | None => None end.

(** The perturbation-strategy calls that [generate_perturbations] makes for
    one image [p] whose ground truth and seed box are read from the heap [h]. *)
Definition expected_perturb_calls {W : World} (h : list (image (pix_t W) (shape_t W)))
    (group seed_key : string) (n : nat) (p : nat) : list (event W) :=
  match lm_of h p group, lm_of h p seed_key with
  | Some gt, Some bb => repeat (EPerturb (bounding_box W gt) bb) (n - 1)
  | _, _ => []
  end.

(** The ground truth under [group], the seed box under [seed_key] and the
    perturbation count of [s] are those of [s0]. *)
Definition same_inputs_as {W : World} (group seed_key : string) (s0 s : state W) : Prop :=
  (forall q, lm_of (heap W s) q group = lm_of (heap W s0) q group) /\
  (forall q, lm_of (heap W s) q seed_key = lm_of (heap W s0) q seed_key) /\
  n_perturbations W s = n_perturbations W s0.

(** The state left by a run, whether it returned or raised. *)
Definition res_state {W : World} {A : Type} (r : res W A) : state W :=
  match r with Err _ s => s | Ok _ s => s end.

(** [keeps I m]: [m] preserves the invariant [I], also when it raises. *)
Definition keeps {W : World} {A : Type} (I : state W -> Prop) (m : M W A) : Prop :=
  forall s, I s -> I (res_state (m s)).

Definition ref_is {W : World} (r : shape_t W) (s : state W) : Prop :=
  reference_shape W s = Some r.

(** [writes] from the states satisfying [P] *)
Definition writes_if {W : World} {X A : Type} (P : state W -> Prop) (g : event W -> list X)
    (t : list X) (m : M W A) : Prop :=
  forall s a s', P s -> m s = Ok a s' ->
    exists ev, log W s' = log W s ++ ev /\ flat_map g ev = t.

(** ** Concrete runs *)

Definition is_ok {W : World} {A : Type} (r : res W A) : bool :=
  match r with Ok _ _ => true | Err _ _ => false end.

(** [(gt_s, bb)] of every call of the perturbation strategy *)
Definition perturb_tag {W : World} (e : event W) : list (shape_t W * shape_t W) :=
  match e with EPerturb gt bb => [(gt, bb)] | _ => [] end.

(** the value of a run that returned, or [d] *)
Definition res_value {W : World} {A : Type} (r : res W A) (d : A) : A :=
  match r with Ok a _ => a | Err _ _ => d end.

(** [(j, current_shapes)] passed to the stage of scale [j] *)
Definition stage_inputs {W : World} (e : event W) : list (nat * list (list (shape_t W))) :=
  match e with EStage _ j _ _ cin _ => [(j, cin)] | _ => [] end.

(** [(current_shapes in, current_shapes out)] of every stage call *)
Definition stage_io {W : World} (e : event W)
  : list (list (list (shape_t W)) * list (list (shape_t W))) :=
  match e with EStage _ _ _ _ cin cout => [(cin, cout)] | _ => [] end.

(** [(j, images)] passed to the stage of scale [j] *)
Definition stage_images {W : World} (e : event W)
  : list (nat * list (image (pix_t W) (shape_t W))) :=
  match e with EStage _ j imgs _ _ _ => [(j, imgs)] | _ => [] end.

(** the scales [j] at which features are computed *)
Definition feat_tag {W : World} (e : event W) : list nat :=
  match e with EFeat j => [j] | _ => [] end.

(** [j == 0 or self.features[j] is not self.features[j - 1]] *)
Definition recomputes {W : World} (cfg : config W) (j : nat) : bool :=
  match j with
  | 0 => true
  | S j' =>
      match nth_error (features W cfg) j, nth_error (features W cfg) j' with
      | Some f, Some f' => negb (Nat.eqb f f')
      | _, _ => true
      end
  end.

(** the images of scale [j] made from the feature images [fi] *)
Definition scaled_at {W : World} (cfg : config W) (j : nat)
    (fi : list (image (pix_t W) (shape_t W))) : list (image (pix_t W) (shape_t W)) :=
  match nth_error (scales W cfg) j with
  | Some s_j => if scale_neq_one W s_j then map (rescale_image W s_j) fi else fi
  | None => fi
  end.

Definition two_images : list (image unit Z) := [img0 [("PTS", 5%Z)]; img0 [("PTS", 6%Z)]].

Definition start_two : state W0 := mkState W0 None 3 [0; 0] two_images [].

(** one image, ground truth 5, no bounding-box group, 3 perturbations *)
Definition start_one : state W0 := mkState W0 None 3 [0; 0] [img0 [("PTS", 5%Z)]] [].

(** one image whose ground truth 5 has its box 1005 under ['__gt_bb_0'] *)
Definition seed_state : state W0 :=
  mkState W0 (Some 5%Z) 3 [0; 0] [img0 [("PTS", 5%Z); ("__gt_bb_0", 1005%Z)]] [].

(** one image with two supplied boxes under ['bb'], 3 perturbations configured *)
Definition boxes_image : image unit Z := img0 [("PTS", 5%Z); ("bb_a", 1%Z); ("bb_b", 2%Z)].

Definition boxes_state : state W0 := mkState W0 (Some 5%Z) 3 [0; 0] [boxes_image] [].

(** one image whose single supplied box is ['bb_1'] *)
Definition collide_images : list (image unit Z) := [img0 [("PTS", 5%Z); ("bb_1", 2%Z)]].

(** [((j, current_shapes in), current_shapes out)] of every stage call *)
Definition stage_trace {W : World} (e : event W)
  : list ((nat * list (list (shape_t W))) * list (list (shape_t W))) :=
  match e with EStage _ j _ _ cin cout => [((j, cin), cout)] | _ => [] end.

(** the image objects [h0] are still there, unchanged, at the start of the heap *)
Definition extends {W : World} (h0 : list (image (pix_t W) (shape_t W))) (s : state W) : Prop :=
  exists rest, heap W s = h0 ++ rest.

(** one image with its box under ['__gt_bb_0'], run through the two scales of [cfg0] *)
Definition loop_imgs : list (image unit Z) := [img0 [("PTS", 5%Z); ("__gt_bb_0", 1005%Z)]].

Definition loop_keys : list string := ["__gt_bb_0"].

Definition loop_state : state W0 := mkState W0 (Some 5%Z) 1 [0; 0] [] [].

(** a pattern without the special characters [*], [?] and [[] of [fnmatch] *)
Fixpoint literal (p : string) : bool :=
  match p with
  | EmptyString => true
  | String c p' => negb (Ascii.eqb c "*"%char) && negb (Ascii.eqb c "?"%char) &&
                   negb (Ascii.eqb c "["%char) && literal p'
  end.

(** two images; the second has no ['PTS'] group *)
Definition missing_gt_state : state W0 :=
  mkState W0 None 3 [0; 0] [img0 [("PTS", 5%Z)]; img0 [("other", 6%Z)]] [].

(** ** Reasoning about the log *)

Section Log.

Variable W : World.

(** [writes g t m]: every successful run of [m] appends to the log events
    whose [g]-images, concatenated, are [t]. *)
Definition writes {X A : Type} (g : event W -> list X) (t : list X) (m : M W A) : Prop :=
  forall s a s', m s = Ok a s' ->
    exists ev, log W s' = log W s ++ ev /\ flat_map g ev = t.

Lemma ok_unit (r : res W unit) : is_ok r = true -> r = Ok tt (res_state r).
Proof. destruct r as [e s | [] s]; simpl; congruence. Qed.

Lemma ok_value {A} (r : res W A) (d : A) : is_ok r = true -> r = Ok (res_value r d) (res_state r).
Proof. destruct r as [e s | a s]; simpl; congruence. Qed.

Lemma bind_ok {A B} (m : M W A) (k : A -> M W B) s b s' :
  bind W m k s = Ok b s' -> exists a s1, m s = Ok a s1 /\ k a s1 = Ok b s'.
Proof.
  unfold bind. destruct (m s) as [e s1 | a s1]; intro H; [discriminate | eauto].
Qed.

Lemma bind_ok_intro {A B} (m : M W A) (k : A -> M W B) s a s1 (r : res W B) :
  m s = Ok a s1 -> k a s1 = r -> bind W m k s = r.
Proof. intros H1 H2. unfold bind. rewrite H1. exact H2. Qed.

Context {X : Type} (g : event W -> list X).

Lemma writes_eq {A} t t' (m : M W A) : t = t' -> writes g t m -> writes g t' m.
Proof. intros ->; auto. Qed.

Lemma writes_ret {A} (a : A) : writes g [] (ret W a).
Proof. intros s b s' H. inversion H; subst. exists []. rewrite app_nil_r. auto. Qed.

Lemma writes_bind {A B} t1 t2 (m : M W A) (k : A -> M W B) :
  writes g t1 m -> (forall a, writes g t2 (k a)) -> writes g (t1 ++ t2) (bind W m k).
Proof.
  intros Hm Hk s b s' H. apply bind_ok in H as (a & s1 & H1 & H2).
  destruct (Hm _ _ _ H1) as (ev1 & L1 & T1). destruct (Hk _ _ _ _ H2) as (ev2 & L2 & T2).
  exists (ev1 ++ ev2). split.
  - rewrite L2, L1, app_assoc. reflexivity.
  - rewrite flat_map_app, T1, T2. reflexivity.
Qed.

Lemma writes_bind_l {A B} t (m : M W A) (k : A -> M W B) :
  writes g t m -> (forall a, writes g [] (k a)) -> writes g t (bind W m k).
Proof. intros. rewrite <- (app_nil_r t). apply writes_bind; auto. Qed.

Lemma writes_bind_r {A B} t (m : M W A) (k : A -> M W B) :
  writes g [] m -> (forall a, writes g t (k a)) -> writes g t (bind W m k).
Proof. intros. apply (writes_bind [] t); auto. Qed.

Lemma writes_emit e : writes g (g e) (emit W e).
Proof.
  intros s a s' H. inversion H; subst. exists [e]. simpl. rewrite app_nil_r. auto.
Qed.

Lemma writes_noemit {A} (m : M W A) : (forall s a s', m s = Ok a s' -> log W s' = log W s) ->
  writes g [] m.
Proof. intros Hm s a s' H. exists []. rewrite app_nil_r. eauto. Qed.

Lemma writes_mapM {A B} (f : A -> M W B) xs :
  (forall x, writes g [] (f x)) -> writes g [] (mapM W f xs).
Proof.
  intro Hf. induction xs as [|x xs IH]; simpl.
  - apply writes_ret.
  - apply writes_bind_r; auto. intro. apply writes_bind_r; auto. intro. apply writes_ret.
Qed.

Lemma writes_forM {A} xs (f : A -> M W unit) :
  (forall x, writes g [] (f x)) -> writes g [] (forM_ W xs f).
Proof.
  intro Hf. induction xs as [|x xs IH]; simpl.
  - apply writes_ret.
  - apply writes_bind_r; auto.
Qed.

End Log.

Arguments writes {W X A}.

(** Primitives that do not touch the log. *)
Ltac nolog :=
  apply writes_noemit; intros ? ? ? Hx; cbv beta in Hx;
  repeat (apply bind_ok in Hx; destruct Hx as (? & ? & ? & Hx));
  repeat match goal with
         | H : of_option _ _ ?o _ = Ok _ _ |- _ =>
             destruct o; simpl in H; inversion H; subst; clear H
         | H : ret _ _ _ = Ok _ _ |- _ => inversion H; subst; clear H
         | H : get _ _ = Ok _ _ |- _ => inversion H; subst; clear H
         end;
  try (inversion Hx; subst; reflexivity); try reflexivity.

Section Writes.

Variable W : World.
Context {X : Type} (g : event W -> list X).

Lemma writes_load p : writes g [] (load W p).
Proof. unfold load. nolog. Qed.

Lemma writes_of_option {A} e (o : option A) : writes g [] (of_option W e o).
Proof. nolog. Qed.

Lemma writes_lms i k : writes g [] (lms W i k).
Proof. unfold lms. nolog. Qed.

Lemma writes_first {A} (xs : list A) : writes g [] (first W xs).
Proof. unfold first. nolog. Qed.

Lemma writes_get : writes g [] (get W).
Proof. nolog. Qed.

Lemma writes_alloc i : writes g [] (alloc W i).
Proof. nolog. Qed.

Lemma writes_set_landmark p k v : writes g [] (set_landmark W p k v).
Proof.
  unfold set_landmark. apply writes_bind_r; [apply writes_load|]. intro. nolog.
Qed.

Lemma writes_set_reference_shape r : writes g [] (set_reference_shape W r).
Proof. nolog. Qed.

Lemma writes_set_n_perturbations n : writes g [] (set_n_perturbations W n).
Proof. nolog. Qed.

Lemma writes_set_algorithm j a : writes g [] (set_algorithm W j a).
Proof. nolog. Qed.

End Writes.

Create HintDb writes.
Hint Resolve writes_ret writes_load writes_of_option writes_lms writes_first writes_get
  writes_alloc writes_set_landmark writes_set_reference_shape writes_set_n_perturbations
  writes_set_algorithm : writes.

(** Steps through a computation that appends nothing observed by [g]. *)
Ltac wr0 :=
  repeat first
    [ progress (intros)
    | progress (cbv zeta)
    | solve [auto with writes]
    | apply writes_mapM
    | apply writes_forM
    | apply writes_bind_r
    | (eapply writes_eq; [| apply writes_emit]; solve [auto])
    | match goal with |- writes _ _ (match ?x with _ => _ end) => destruct x end ].

(** Steps through a computation in which one sub-computation, proved by
    [H], appends what [g] observes. *)
Ltac wr1 H :=
  repeat first
    [ progress (intros)
    | progress (cbv zeta)
    | solve [auto with writes]
    | (apply writes_bind_l; [solve [apply H] |])
    | apply writes_mapM
    | apply writes_forM
    | apply writes_bind_r
    | (eapply writes_eq; [| apply writes_emit]; solve [auto])
    | match goal with |- writes _ _ (match ?x with _ => _ end) => destruct x end ].

Section Components.

Variable W : World.
Context {X : Type} (g : event W -> list X).

Lemma writes_resolve_group group b : writes g [] (resolve_group W group b).
Proof. unfold resolve_group. wr0. Qed.

Lemma writes_ensure_reference_shape cfg bs group b :
  g EWarnRef = [] -> (forall sh, g (ECompRef sh) = []) ->
  writes g [] (ensure_reference_shape W cfg bs group b).
Proof. intros. unfold ensure_reference_shape. wr0. Qed.

Lemma writes_rescale b group ref : writes g [] (rescale_images_to_reference_shape W b group ref).
Proof. unfold rescale_images_to_reference_shape. wr0. Qed.

Lemma writes_resolve_bb_group bbg group b : writes g [] (resolve_bb_group W bbg group b).
Proof. unfold resolve_bb_group. wr0. Qed.

Lemma writes_bb_keys b bb_group : writes g [] (bb_keys W b bb_group).
Proof. unfold bb_keys. wr0. Qed.

Lemma writes_generate_perturbations cfg group bb_group b :
  (forall x y, g (EPerturb x y) = []) -> (forall x y, g (EWarnPert x y) = []) ->
  writes g [] (generate_perturbations W cfg group bb_group b).
Proof.
  intros. unfold generate_perturbations, perturb_image.
  wr0.
Qed.

End Components.

Hint Resolve writes_resolve_group writes_rescale writes_resolve_bb_group writes_bb_keys : writes.

Section Stages.

Variable W : World.

Lemma run_stage_calls inc j imgs gts cs :
  writes stage_tag [(inc, j)] (run_stage W inc j imgs gts cs).
Proof.
  unfold run_stage. apply writes_bind_r; [auto with writes|]. intro s.
  apply writes_bind_r; [auto with writes|]. intro alg.
  destruct (if inc then _ else _) as [alg' out].
  apply writes_bind_r; [auto with writes|]. intro.
  apply writes_bind_l; [apply writes_emit|]. intro. apply writes_ret.
Qed.

Lemma scale_step_calls cfg inc ref group imgs keys j fi cs :
  writes stage_tag [(inc, j)] (scale_step W cfg inc ref group imgs keys j fi cs).
Proof. unfold scale_step. wr1 run_stage_calls. Qed.

Lemma scale_loop_calls cfg inc ref group imgs keys js :
  forall fi cs,
  writes stage_tag (map (fun j => (inc, j)) js) (scale_loop W cfg inc ref group imgs keys js fi cs).
Proof.
  induction js as [|j js IH]; intros fi cs; simpl.
  - apply writes_ret.
  - apply (writes_bind W stage_tag [(inc, j)]); [apply scale_step_calls|]. intro. apply IH.
Qed.

Lemma train_batch_calls cfg group bbg bs inc b :
  writes stage_tag (map (fun j => (inc, j)) (seq 0 (n_scales W cfg)))
    (train_batch W cfg group bbg bs inc b).
Proof.
  unfold train_batch.
  wr1 scale_loop_calls;
    try (apply writes_ensure_reference_shape; reflexivity);
    try (apply writes_generate_perturbations; reflexivity).
Qed.

Lemma train_batches_calls cfg group bbg bs batches :
  forall inc k,
  writes stage_tag
    (List.concat (map (fun k' => stage_row (n_scales W cfg) (if Nat.ltb 0 k' then true else inc))
                 (seq k (List.length batches))))
    (train_batches W cfg group bbg bs inc k batches).
Proof.
  revert group. induction batches as [|b batches IH]; intros group inc k; simpl.
  - apply writes_ret.
  - apply writes_bind; [apply train_batch_calls|]. intro g'.
    eapply writes_eq; [| apply IH].
    f_equal. apply map_ext_in. intros k' Hk. apply in_seq in Hk.
    destruct (Nat.ltb_spec 0 k'); [|lia]. destruct (Nat.ltb_spec 0 k); reflexivity.
Qed.

End Stages.

(** ** Claims *)

(** C1: the constructor's training calls every stage's [train] on its
    first batch (index 0) and [increment] on every later batch; a later
    [increment] call calls [increment] on every batch. So after the first
    batch, [train] is never called again. *)
Theorem first_batch_trains_later_batches_increment :
  (forall W cfg setup heap0 images group bbg ref0 n0 batch_size s',
     SupervisedDescentFitter W cfg setup heap0 images group bbg ref0 n0 batch_size = Ok tt s' ->
     stage_calls (log W s') =
       List.concat (map (fun k => stage_row (n_scales W cfg) (Nat.ltb 0 k))
                        (seq 0 (List.length (image_batches images batch_size))))) /\
  (forall W cfg images group bbg batch_size s s',
     increment W cfg images group bbg batch_size s = Ok tt s' ->
     exists ev, log W s' = log W s ++ ev /\
       stage_calls ev = List.concat (map (fun _ => stage_row (n_scales W cfg) true)
                                         (image_batches images batch_size))).
Proof.
  split.
  - intros W cfg setup heap0 images group bbg ref0 n0 bs s' H.
    destruct (train_batches_calls W cfg group bbg bs (image_batches images bs) false 0 _ _ _ H)
      as (ev & Hl & Ht).
    rewrite Hl. unfold stage_calls. simpl. rewrite Ht. f_equal.
    apply map_ext. intro k. destruct (Nat.ltb 0 k); reflexivity.
  - intros W cfg images group bbg bs s s' H.
    destruct (train_batches_calls W cfg group bbg bs (image_batches images bs) true 0 _ _ _ H)
      as (ev & Hl & Ht).
    exists ev. split; [exact Hl|]. unfold stage_calls. rewrite Ht. clear.
    rewrite (map_ext _ (fun _ => stage_row (n_scales W cfg) true))
      by (intro k; destruct (Nat.ltb 0 k); reflexivity).
    generalize 0. induction (image_batches images bs) as [|b l IH]; intro k; simpl;
      [reflexivity | f_equal; apply IH].
Qed.

Lemma first_batch_trains_later_batches_increment_witness :
  exists s1 s2,
    SupervisedDescentFitter W0 cfg0 (fun _ => 0) two_images [0; 1] None None None 3 (Some 1)
      = Ok tt s1 /\
    increment W0 cfg0 [0; 1] None None (Some 1) s1 = Ok tt s2 /\
    stage_calls (log W0 s1) = [(false, 0); (false, 1); (true, 0); (true, 1)] /\
    exists ev, log W0 s2 = log W0 s1 ++ ev /\
               stage_calls ev = [(true, 0); (true, 1); (true, 0); (true, 1)].
Proof.
  pose proof (ok_unit W0 (SupervisedDescentFitter W0 cfg0 (fun _ => 0) two_images [0; 1]
                            None None None 3 (Some 1))
                ltac:(vm_compute; reflexivity)) as E1.
  pose proof (ok_unit W0 (increment W0 cfg0 [0; 1] None None (Some 1)
                            (res_state (SupervisedDescentFitter W0 cfg0 (fun _ => 0) two_images
                                          [0; 1] None None None 3 (Some 1))))
                ltac:(vm_compute; reflexivity)) as E2.
  do 2 eexists.
  split; [exact E1|]. split; [exact E2|]. split.
  - rewrite (proj1 first_batch_trains_later_batches_increment _ _ _ _ _ _ _ _ _ _ _ E1).
    vm_compute. reflexivity.
  - destruct (proj2 first_batch_trains_later_batches_increment _ _ _ _ _ _ _ _ E2)
      as (ev & Hl & Ht).
    exists ev. split; [exact Hl|]. rewrite Ht. vm_compute. reflexivity.
Defined.

(** ** Invariants *)

Section Keeps.

Variable W : World.
Variable I : state W -> Prop.

Lemma keeps_bind {A B} (m : M W A) (k : A -> M W B) :
  keeps I m -> (forall a, keeps I (k a)) -> keeps I (bind W m k).
Proof.
  intros Hm Hk s Hs. unfold bind. specialize (Hm s Hs).
  destruct (m s) as [e s1 | a s1]; simpl in *; auto. apply Hk; auto.
Qed.

Lemma keeps_ret {A} (a : A) : keeps I (ret W a).
Proof. intros s Hs. exact Hs. Qed.

Lemma keeps_mapM {A B} (f : A -> M W B) xs :
  (forall x, keeps I (f x)) -> keeps I (mapM W f xs).
Proof.
  intro Hf. induction xs as [|x xs IH]; simpl; [apply keeps_ret|].
  apply keeps_bind; auto. intro. apply keeps_bind; auto. intro. apply keeps_ret.
Qed.

Lemma keeps_forM {A} xs (f : A -> M W unit) :
  (forall x, keeps I (f x)) -> keeps I (forM_ W xs f).
Proof.
  intro Hf. induction xs as [|x xs IH]; simpl; [apply keeps_ret|].
  apply keeps_bind; auto.
Qed.

(** A step that leaves the state unchanged keeps every invariant. *)
Lemma keeps_pure {A} (m : M W A) : (forall s, res_state (m s) = s) -> keeps I m.
Proof. intros H s Hs. rewrite H. exact Hs. Qed.

Lemma writes_if_of {X A} (g : event W -> list X) t (m : M W A) :
  writes g t m -> writes_if I g t m.
Proof. intros H s a s' _ Hm. eauto. Qed.

Lemma writes_if_bind {X A B} (g : event W -> list X) t1 t2 (m : M W A) (k : A -> M W B) :
  writes_if I g t1 m -> keeps I m -> (forall a, writes_if I g t2 (k a)) ->
  writes_if I g (t1 ++ t2) (bind W m k).
Proof.
  intros Hm Km Hk s b s' Hs H. apply bind_ok in H as (a & s1 & H1 & H2).
  destruct (Hm _ _ _ Hs H1) as (ev1 & L1 & T1).
  assert (I s1) as Hs1 by (specialize (Km s Hs); rewrite H1 in Km; exact Km).
  destruct (Hk _ _ _ _ Hs1 H2) as (ev2 & L2 & T2).
  exists (ev1 ++ ev2). split.
  - rewrite L2, L1, app_assoc. reflexivity.
  - rewrite flat_map_app, T1, T2. reflexivity.
Qed.

End Keeps.

Section RefKeeps.

Variable W : World.
Variable r : shape_t W.

Lemma keeps_ref_load p : keeps (ref_is r) (load W p).
Proof. apply keeps_pure. intro s. unfold load. destruct (nth_error _ _); reflexivity. Qed.

Lemma keeps_ref_of_option {A} e (o : option A) : keeps (ref_is r) (of_option W e o).
Proof. apply keeps_pure. intro s. destruct o; reflexivity. Qed.

Lemma keeps_ref_lms i k : keeps (ref_is r) (lms W i k).
Proof. apply keeps_ref_of_option. Qed.

Lemma keeps_ref_first {A} (xs : list A) : keeps (ref_is r) (first W xs).
Proof. apply keeps_ref_of_option. Qed.

Lemma keeps_ref_get : keeps (ref_is r) (get W).
Proof. apply keeps_pure. reflexivity. Qed.

Lemma keeps_ref_emit e : keeps (ref_is r) (emit W e).
Proof. intros s Hs. exact Hs. Qed.

Lemma keeps_ref_alloc i : keeps (ref_is r) (alloc W i).
Proof. intros s Hs. exact Hs. Qed.

Lemma keeps_ref_set_landmark p k v : keeps (ref_is r) (set_landmark W p k v).
Proof.
  unfold set_landmark. apply keeps_bind; [apply keeps_ref_load|]. intros i s Hs. exact Hs.
Qed.

Lemma keeps_ref_set_n_perturbations n : keeps (ref_is r) (set_n_perturbations W n).
Proof. intros s Hs. exact Hs. Qed.

Lemma keeps_ref_set_algorithm j a : keeps (ref_is r) (set_algorithm W j a).
Proof. intros s Hs. exact Hs. Qed.

End RefKeeps.

Create HintDb keeps.
Hint Resolve keeps_ret keeps_ref_load keeps_ref_of_option keeps_ref_lms keeps_ref_first
  keeps_ref_get keeps_ref_emit keeps_ref_alloc keeps_ref_set_landmark
  keeps_ref_set_n_perturbations keeps_ref_set_algorithm : keeps.

Ltac kp0 :=
  repeat first
    [ progress (intros)
    | progress (cbv zeta)
    | solve [auto with keeps]
    | apply keeps_mapM
    | apply keeps_forM
    | apply keeps_bind
    | match goal with |- keeps _ (match ?x with _ => _ end) => destruct x end ].


Section RefEvents.

Variable W : World.
Context {X : Type} (g : event W -> list X).

Lemma writes_scale_loop cfg inc ref group imgs keys js :
  (forall j, g (EFeat j) = []) -> (forall j, g (EScaleImgs j) = []) ->
  (forall inc j a b c d, g (EStage inc j a b c d) = []) ->
  forall fi cs, writes g [] (scale_loop W cfg inc ref group imgs keys js fi cs).
Proof.
  intros H1 H2 H3. induction js as [|j js IH]; intros fi cs; simpl; [apply writes_ret|].
  apply writes_bind_r; [|intro; apply IH].
  unfold scale_step, run_stage. wr0.
Qed.

(** the part of [train_batch] after the reference shape is set *)
Lemma writes_train_batch_tail cfg inc bbg ref group b :
  (forall x y, g (EPerturb x y) = []) -> (forall x y, g (EWarnPert x y) = []) ->
  (forall j, g (EFeat j) = []) -> (forall j, g (EScaleImgs j) = []) ->
  (forall inc j a b c d, g (EStage inc j a b c d) = []) ->
  writes g []
    (image_batch <- rescale_images_to_reference_shape W b group ref ;;
     bb_group <- resolve_bb_group W bbg group image_batch ;;
     all_bb_keys <- generate_perturbations W cfg group bb_group image_batch ;;
     imgs <- mapM W (load W) image_batch ;;
     scale_loop W cfg inc ref group imgs all_bb_keys (seq 0 (n_scales W cfg)) [] [] ;;;
     ret W group).
Proof.
  intros. wr0; try (apply writes_generate_perturbations; assumption);
    try (apply writes_scale_loop; assumption).
Qed.

End RefEvents.

Lemma mapM_read_state {W A B} (f : A -> M W B) xs s ys s' :
  (forall x s a s', f x s = Ok a s' -> s' = s) -> mapM W f xs s = Ok ys s' -> s' = s.
Proof.
  intro Hf. revert s ys. induction xs as [|x xs IH]; intros s ys H; simpl in H.
  - inversion H; reflexivity.
  - apply bind_ok in H as (y & s1 & H1 & H). apply bind_ok in H as (ys' & s2 & H2 & H).
    inversion H; subst. apply Hf in H1. apply IH in H2. congruence.
Qed.

Lemma read_lms_state {W} group p s a s' :
  (i <- load W p ;; lms W i group) s = Ok a s' -> s' = s.
Proof.
  intro H. apply bind_ok in H as (i & s1 & H1 & H2). unfold load, lms in *.
  destruct (nth_error _ _); simpl in H1; inversion H1; subst.
  destruct (dict_get _ _); simpl in H2; inversion H2; subst; reflexivity.
Qed.

Lemma resolve_group_state {W} group b s a s' : resolve_group W group b s = Ok a s' -> s' = s.
Proof.
  unfold resolve_group. destruct group; intro H; [inversion H; reflexivity|].
  apply bind_ok in H as (p & s1 & H1 & H). apply bind_ok in H as (i & s2 & H2 & H).
  apply bind_ok in H as (k & s3 & H3 & H). unfold first, load, of_option in *.
  repeat match goal with
         | H : (match ?o with Some _ => _ | None => _ end) _ = Ok _ _ |- _ =>
             destruct o; simpl in H; inversion H; subst; clear H
         end.
  inversion H; reflexivity.
Qed.

Lemma read_shapes_mapM {W} group ps s ys s' :
  mapM W (fun p => i <- load W p ;; lms W i group) ps s = Ok ys s' ->
  s' = s /\ gt_shapes W (heap W s) group ps = Some ys.
Proof.
  revert s ys s'. induction ps as [|p ps IH]; intros s ys s' H; simpl in *.
  - inversion H; auto.
  - apply bind_ok in H as (y & s1 & H1 & H). pose proof (read_lms_state _ _ _ _ _ H1); subst s1.
    apply bind_ok in H as (ys' & s2 & H2 & H). apply IH in H2 as [E2 H2]. subst s2.
    cbv [ret] in H. injection H as E3 E4. subst ys s'. split; [reflexivity|].
    apply bind_ok in H1 as (i & s3 & H3 & H4). unfold load, lms in *.
    destruct (nth_error (heap W s) p); simpl in H3; inversion H3; subst.
    destruct (dict_get (landmarks i) group); simpl in H4; inversion H4; subst.
    rewrite H2. reflexivity.
Qed.

Lemma read_shapes_mapM_inv {W} group ps s ys :
  gt_shapes W (heap W s) group ps = Some ys ->
  mapM W (fun p => i <- load W p ;; lms W i group) ps s = Ok ys s.
Proof.
  revert ys. induction ps as [|p ps IH]; intros ys H; simpl in *.
  - inversion H; reflexivity.
  - destruct (nth_error (heap W s) p) as [i|] eqn:Ep; [|discriminate].
    destruct (dict_get (landmarks i) group) as [y|] eqn:Ey; [|discriminate].
    destruct (gt_shapes W (heap W s) group ps) as [ys'|]; [|discriminate].
    simpl in H. inversion H; subst.
    apply (bind_ok_intro _ _ _ _ y s).
    + apply (bind_ok_intro _ _ _ _ i s); unfold load, lms; rewrite ?Ep, ?Ey; reflexivity.
    + apply (bind_ok_intro _ _ _ _ ys' s); [apply IH; reflexivity | reflexivity].
Qed.

Lemma ensure_reference_shape_none {W} cfg bs group b s a s' :
  reference_shape W s = None ->
  ensure_reference_shape W cfg bs group b s = Ok a s' ->
  exists shapes,
    gt_shapes W (heap W s) group b = Some shapes /\
    a = compute_reference_shape W shapes (diagonal W cfg) /\
    reference_shape W s' = Some a /\
    log W s' = log W s ++ (match bs with Some _ => [EWarnRef] | None => [] end) ++ [ECompRef shapes].
Proof.
  intros Hn H. unfold ensure_reference_shape in H.
  apply bind_ok in H as (s0 & s1 & H0 & H). cbv [get] in H0. injection H0 as E0 E1.
  subst s0 s1. rewrite Hn in H.
  apply bind_ok in H as (u & s2 & H2 & H).
  assert (reference_shape W s2 = None /\ log W s2 = log W s ++ match bs with Some _ => [EWarnRef] | None => [] end
          /\ heap W s2 = heap W s) as (R2 & L2 & Hh2).
  { destruct bs; inversion H2; subst; simpl; rewrite ?app_nil_r; auto. }
  apply bind_ok in H as (shapes & s3 & H3 & H).
  assert (s3 = s2) by (eapply mapM_read_state; [apply read_lms_state | exact H3]). subst s3.
  apply bind_ok in H as (u' & s4 & H4 & H). inversion H4; subst. clear H4.
  apply bind_ok in H as (u'' & s5 & H5 & H). inversion H5; subst. clear H5.
  inversion H; subst. clear H.
  exists shapes. split; [|split; [reflexivity|split; [reflexivity|]]].
  - apply read_shapes_mapM in H3 as [_ H3]. rewrite Hh2 in H3.
    exact H3.
  - simpl. rewrite L2, <- app_assoc. reflexivity.
Qed.

Section RefLatch.

Variable W : World.
Variable r : shape_t W.

Lemma keeps_ref_ensure cfg bs group b : keeps (ref_is r) (ensure_reference_shape W cfg bs group b).
Proof.
  intros s Hs. unfold ensure_reference_shape, bind, get. unfold ref_is in Hs. rewrite Hs.
  exact Hs.
Qed.

Lemma writes_if_ref_ensure cfg bs group b :
  writes_if (ref_is r) ref_tag [] (ensure_reference_shape W cfg bs group b).
Proof.
  intros s a s' Hs H. unfold ensure_reference_shape, bind, get in H.
  unfold ref_is in Hs. rewrite Hs in H. inversion H; subst.
  exists []. rewrite app_nil_r. auto.
Qed.

Lemma keeps_ref_train_batch_tail cfg inc bbg ref group b :
  keeps (ref_is r)
    (image_batch <- rescale_images_to_reference_shape W b group ref ;;
     bb_group <- resolve_bb_group W bbg group image_batch ;;
     all_bb_keys <- generate_perturbations W cfg group bb_group image_batch ;;
     imgs <- mapM W (load W) image_batch ;;
     scale_loop W cfg inc ref group imgs all_bb_keys (seq 0 (n_scales W cfg)) [] [] ;;;
     ret W group).
Proof.
  unfold rescale_images_to_reference_shape, resolve_bb_group, generate_perturbations,
    perturb_image, bb_keys.
  apply keeps_bind; [kp0|]. intro.
  apply keeps_bind; [kp0|]. intro.
  apply keeps_bind; [kp0|]. intro.
  apply keeps_bind; [kp0|]. intro.
  apply keeps_bind; [|intro; kp0].
  generalize (seq 0 (n_scales W cfg)) as js, (@nil (image (pix_t W) (shape_t W))) as fi,
    (@nil (list (shape_t W))) as cs.
  intro js. induction js as [|j js IH]; intros fi cs; simpl; [kp0|].
  apply keeps_bind; [|intro; apply IH].
  unfold scale_step, run_stage. kp0.
Qed.

Lemma keeps_ref_train_batch cfg group bbg bs inc b :
  keeps (ref_is r) (train_batch W cfg group bbg bs inc b).
Proof.
  unfold train_batch. apply keeps_bind; [unfold resolve_group; kp0|]. intro g.
  apply keeps_bind; [apply keeps_ref_ensure|]. intro ref.
  apply keeps_ref_train_batch_tail.
Qed.

Lemma writes_if_ref_train_batch cfg group bbg bs inc b :
  writes_if (ref_is r) ref_tag [] (train_batch W cfg group bbg bs inc b).
Proof.
  unfold train_batch. apply (writes_if_bind _ _ _ [] []).
  - apply writes_if_of, writes_resolve_group.
  - unfold resolve_group; kp0.
  - intro g. apply (writes_if_bind _ _ _ [] []).
    + apply writes_if_ref_ensure.
    + apply keeps_ref_ensure.
    + intro ref. apply writes_if_of, writes_train_batch_tail; reflexivity.
Qed.

Lemma writes_if_ref_train_batches cfg group bbg bs inc k batches :
  writes_if (ref_is r) ref_tag [] (train_batches W cfg group bbg bs inc k batches).
Proof.
  revert group inc k. induction batches as [|b batches IH]; intros group inc k; simpl.
  - apply writes_if_of, writes_ret.
  - apply (writes_if_bind _ _ _ [] []);
      [apply writes_if_ref_train_batch | apply keeps_ref_train_batch | intro; apply IH].
Qed.

Lemma keeps_ref_train_batches cfg group bbg bs inc k batches :
  keeps (ref_is r) (train_batches W cfg group bbg bs inc k batches).
Proof.
  revert group inc k. induction batches as [|b batches IH]; intros group inc k; simpl; [kp0|].
  apply keeps_bind; [apply keeps_ref_train_batch | intro; apply IH].
Qed.

End RefLatch.

(** C4: without a supplied reference shape, the first batch sets it once,
    to [compute_reference_shape] of the first batch's ground-truth shapes
    read from the caller's images before they are rescaled, with a warning
    exactly when [batch_size] is set; once the reference shape is set, no
    training or increment call changes it (also when the call raises) and
    none computes it again. *)
Theorem reference_shape_set_once_from_first_batch :
  (forall W cfg images group bbg inc bs s s' b0 rest,
     reference_shape W s = None ->
     image_batches images bs = b0 :: rest ->
     train_impl W cfg images group bbg inc bs s = Ok tt s' ->
     exists g shapes ev,
       resolve_group W group b0 s = Ok g s /\
       gt_shapes W (heap W s) g b0 = Some shapes /\
       reference_shape W s' = Some (compute_reference_shape W shapes (diagonal W cfg)) /\
       log W s' = log W s ++ ev /\
       flat_map ref_tag ev = (match bs with Some _ => [None] | None => [] end) ++ [Some shapes]) /\
  (forall W cfg images group bbg inc bs s r,
     reference_shape W s = Some r ->
     reference_shape W (res_state (train_impl W cfg images group bbg inc bs s)) = Some r /\
     (forall s', train_impl W cfg images group bbg inc bs s = Ok tt s' ->
        exists ev, log W s' = log W s ++ ev /\ flat_map ref_tag ev = [])).
Proof.
  split.
  - intros W cfg images group bbg inc bs s s' b0 rest Hn Hb H.
    unfold train_impl in H. rewrite Hb in H. simpl in H.
    apply bind_ok in H as (g & s1 & H1 & Hrest).
    unfold train_batch in H1.
    apply bind_ok in H1 as (g' & s2 & Hg & H1).
    pose proof (resolve_group_state _ _ _ _ _ Hg). subst s2.
    apply bind_ok in H1 as (r & s3 & He & Ht).
    destruct (ensure_reference_shape_none _ _ _ _ _ _ _ Hn He) as (shapes & Hsh & -> & Hr3 & Hl3).
    exists g', shapes.
    destruct (writes_train_batch_tail W ref_tag cfg _ bbg _ g' b0
                ltac:(reflexivity) ltac:(reflexivity) ltac:(reflexivity) ltac:(reflexivity)
                ltac:(reflexivity) _ _ _ Ht) as (ev1 & L1 & T1).
    assert (Hr1 : ref_is (compute_reference_shape W shapes (diagonal W cfg)) s1).
    { pose proof (keeps_ref_train_batch_tail W _ cfg inc bbg
                    (compute_reference_shape W shapes (diagonal W cfg)) g' b0 s3 Hr3) as K.
      rewrite Ht in K. exact K. }
    pose proof (keeps_ref_train_batches W _ cfg (Some g) bbg bs inc
                  1 rest s1 Hr1) as K. rewrite Hrest in K.
    destruct (writes_if_ref_train_batches W _ cfg (Some g) bbg bs inc
                1 rest _ _ _ Hr1 Hrest) as (ev2 & L2 & T2).
    exists (((match bs with Some _ => [EWarnRef] | None => [] end) ++ [ECompRef shapes]) ++ ev1 ++ ev2).
    split; [exact Hg|]. split; [exact Hsh|]. split; [exact K|]. split.
    + rewrite L2, L1, Hl3. rewrite !app_assoc. reflexivity.
    + rewrite !flat_map_app, T1, T2. destruct bs; reflexivity.
  - intros W cfg images group bbg inc bs s r Hs. split.
    + apply (keeps_ref_train_batches W r). exact Hs.
    + intros s' H. eapply (writes_if_ref_train_batches W r); eauto.
Qed.

Lemma reference_shape_set_once_from_first_batch_witness :
  (exists s',
     train_impl W0 cfg0 [0; 1] None None false (Some 1) start_two = Ok tt s' /\
     exists g shapes ev,
       resolve_group W0 None [0] start_two = Ok g start_two /\
       gt_shapes W0 two_images g [0] = Some shapes /\
       reference_shape W0 s' = Some (compute_reference_shape W0 shapes None) /\
       log W0 s' = [] ++ ev /\
       flat_map ref_tag ev = [None] ++ [Some shapes]) /\
  (reference_shape W0 (res_state (train_impl W0 cfg0 [0] None None true None
       (mkState W0 (Some 7%Z) 3 [1; 1] [img0 [("PTS", 5%Z)]] []))) = Some 7%Z /\
   (forall s', train_impl W0 cfg0 [0] None None true None
                 (mkState W0 (Some 7%Z) 3 [1; 1] [img0 [("PTS", 5%Z)]] []) = Ok tt s' ->
      exists ev, log W0 s' = [] ++ ev /\ flat_map ref_tag ev = [])).
Proof.
  split.
  - pose proof (ok_unit W0 (train_impl W0 cfg0 [0; 1] None None false (Some 1) start_two)
                  ltac:(vm_compute; reflexivity)) as E.
    eexists. split; [exact E|].
    exact (proj1 reference_shape_set_once_from_first_batch W0 cfg0 [0; 1] None None false (Some 1)
             start_two _ [0] [[1]] eq_refl eq_refl E).
  - exact (proj2 reference_shape_set_once_from_first_batch W0 cfg0 [0] None None true None
             (mkState W0 (Some 7%Z) 3 [1; 1] [img0 [("PTS", 5%Z)]] []) 7%Z eq_refl).
Defined.

(** C7 (as written): the perturbation strategy receives the image's
    ground-truth shape as its first argument. The code passes the bounding
    box of the ground-truth shape ([gt_s = i.landmarks[group].lms.bounding_box()]):
    with one image whose ground truth is 5 and seed box 1005, the strategy is
    called with (1005, 1005), never with 5 first. *)
Lemma perturb_strategy_receives_gt_shape_counterexample :
  ~ (forall s', train_impl W0 cfg0 [0] None None false None start_one = Ok tt s' ->
       forall gt bb, In (gt, bb) (flat_map perturb_tag (log W0 s')) -> gt = 5%Z /\ bb = 1005%Z).
Proof.
  intro H.
  pose proof (ok_unit W0 (train_impl W0 cfg0 [0] None None false None start_one)
                ltac:(vm_compute; reflexivity)) as E.
  destruct (H _ E 1005%Z 1005%Z) as [Hgt _]; [vm_compute; tauto | discriminate].
Qed.

(** ** Perturbations from a single seed box *)

Lemma dict_get_set_other {S} (lms : list (string * S)) k k' v :
  k <> k' -> dict_get (dict_set lms k v) k' = dict_get lms k'.
Proof.
  intro Hne. induction lms as [|[k0 v0] lms IH]; simpl.
  - destruct (String.eqb_spec k' k); [congruence | reflexivity].
  - destruct (String.eqb_spec k k0) as [->|Hk0]; simpl.
    + destruct (String.eqb_spec k' k0); [congruence | reflexivity].
    + destruct (String.eqb_spec k' k0); [reflexivity | exact IH].
Qed.

Lemma nth_error_list_set {A} (xs : list A) p q v :
  nth_error (list_set xs p v) q = if Nat.eqb p q then
                                    match nth_error xs q with Some _ => Some v | None => None end
                                  else nth_error xs q.
Proof.
  revert p q. induction xs as [|x xs IH]; intros p q; simpl.
  - destruct (Nat.eqb p q), q; reflexivity.
  - destruct p, q; simpl; try reflexivity. apply IH.
Qed.

Lemma lm_of_set_other {W} (h : list (image (pix_t W) (shape_t W))) p i q k k' v :
  nth_error h p = Some i -> k <> k' ->
  lm_of (list_set h p (mkImage (pixels i) (dict_set (landmarks i) k v))) q k' = lm_of h q k'.
Proof.
  intros Hp Hne. unfold lm_of. rewrite nth_error_list_set.
  destruct (Nat.eqb_spec p q) as [<-|]; [|reflexivity].
  rewrite Hp. simpl. apply dict_get_set_other. exact Hne.
Qed.

Section SeedPerturbations.

Variable W : World.
Variable cfg : config W.
Variables (group bb_group seed_key : string) (s0 : state W).

(** the generated keys are neither the seed key nor the ground-truth key *)
Hypothesis fresh_keys : forall j, 1 <= j < n_perturbations W s0 ->
  perturb_key bb_group j <> seed_key /\ perturb_key bb_group j <> group.

Local Notation same_inputs := (same_inputs_as group seed_key s0).

Lemma perturb_body_step p j s a s' :
  1 <= j < n_perturbations W s0 -> same_inputs s ->
  (i <- load W p ;;
   gt <- lms W i group ;;
   let gt_s := bounding_box W gt in
   bb <- lms W i seed_key ;;
   let p_s := perturb_fn W cfg gt_s bb in
   emit W (EPerturb gt_s bb) ;;;
   let perturb_bbox_group := perturb_key bb_group j in
   set_landmark W p perturb_bbox_group p_s) s = Ok a s' ->
  same_inputs s' /\
  exists gt bb, lm_of (heap W s0) p group = Some gt /\ lm_of (heap W s0) p seed_key = Some bb /\
                log W s' = log W s ++ [EPerturb (bounding_box W gt) bb].
Proof.
  intros Hj (Hg & Hs & Hn) H. destruct (fresh_keys j Hj) as [Fs Fg].
  apply bind_ok in H as (i & s1 & H1 & H). unfold load in H1.
  destruct (nth_error (heap W s) p) as [i'|] eqn:Ep; simpl in H1; inversion H1; subst; clear H1.
  apply bind_ok in H as (gt & s2 & H2 & H). unfold lms in H2.
  destruct (dict_get (landmarks i) group) as [gt'|] eqn:Eg; simpl in H2; inversion H2; subst; clear H2.
  apply bind_ok in H as (bb & s3 & H3 & H). unfold lms in H3.
  destruct (dict_get (landmarks i) seed_key) as [bb'|] eqn:Eb; simpl in H3; inversion H3; subst; clear H3.
  apply bind_ok in H as (u & s4 & H4 & H). inversion H4; subst; clear H4.
  unfold set_landmark in H. apply bind_ok in H as (i2 & s5 & H5 & H). unfold load in H5. simpl in H5.
  rewrite Ep in H5. simpl in H5. inversion H5; subst; clear H5. inversion H; subst; clear H.
  simpl heap; simpl log; simpl n_perturbations. split; [split; [|split]|].
  - intro q. transitivity (lm_of (heap W s3) q group); [|apply Hg].
    apply lm_of_set_other; assumption.
  - intro q. transitivity (lm_of (heap W s3) q seed_key); [|apply Hs].
    apply lm_of_set_other; assumption.
  - exact Hn.
  - exists gt, bb. rewrite <- Hg, <- Hs. unfold lm_of. rewrite Ep, Eg, Eb. auto.
Qed.

Lemma perturb_loop_step p js s a s' :
  (forall j, In j js -> 1 <= j < n_perturbations W s0) -> same_inputs s ->
  forM_ W js (fun j =>
    i <- load W p ;;
    gt <- lms W i group ;;
    let gt_s := bounding_box W gt in
    bb <- lms W i seed_key ;;
    let p_s := perturb_fn W cfg gt_s bb in
    emit W (EPerturb gt_s bb) ;;;
    let perturb_bbox_group := perturb_key bb_group j in
    set_landmark W p perturb_bbox_group p_s) s = Ok a s' ->
  same_inputs s' /\
  log W s' = log W s ++ expected_perturb_calls (heap W s0) group seed_key (S (List.length js)) p.
Proof.
  revert s. induction js as [|j js IH]; intros s Hjs Hs H; simpl in H.
  - inversion H; subst. split; [exact Hs|].
    unfold expected_perturb_calls. destruct (lm_of (heap W s0) p group), (lm_of (heap W s0) p seed_key);
      simpl; rewrite ?app_nil_r; reflexivity.
  - apply bind_ok in H as (u & s1 & H1 & H).
    destruct (perturb_body_step p j _ _ _ (Hjs j (or_introl eq_refl)) Hs H1)
      as (Hs1 & gt & bb & Eg & Eb & L1).
    destruct (IH s1 (fun j' Hj' => Hjs j' (or_intror Hj')) Hs1 H) as (Hs' & L').
    split; [exact Hs'|]. rewrite L', L1. unfold expected_perturb_calls. rewrite Eg, Eb.
    simpl. rewrite <- app_assoc, Nat.sub_0_r. reflexivity.
Qed.

Lemma perturb_images_step ps s a s' :
  same_inputs s ->
  forM_ W ps (perturb_image W cfg group bb_group seed_key) s = Ok a s' ->
  same_inputs s' /\
  log W s' = log W s ++
    flat_map (expected_perturb_calls (heap W s0) group seed_key (n_perturbations W s0)) ps.
Proof.
  revert s. induction ps as [|p ps IH]; intros s Hs H; simpl in H.
  - inversion H; subst. simpl. rewrite app_nil_r. auto.
  - apply bind_ok in H as (u & s1 & H1 & H). unfold perturb_image in H1.
    apply bind_ok in H1 as (s2 & s3 & H2 & H1). inversion H2; subst; clear H2.
    pose proof Hs as (_ & _ & Hn). rewrite Hn in H1.
    assert (Hjs : forall j, In j (seq 1 (n_perturbations W s0 - 1)) -> 1 <= j < n_perturbations W s0)
      by (intros j Hj; apply in_seq in Hj; lia).
    destruct (perturb_loop_step p _ _ _ _ Hjs Hs H1) as (Hs1 & L1).
    destruct (IH _ Hs1 H) as (Hs' & L'). split; [exact Hs'|].
    rewrite L', L1, length_seq. simpl. rewrite <- app_assoc. f_equal. f_equal.
    unfold expected_perturb_calls.
    destruct (lm_of (heap W s0) p group), (lm_of (heap W s0) p seed_key); try reflexivity.
    f_equal. lia.
Qed.

End SeedPerturbations.

(** ** One pass of the scale loop *)

Lemma of_option_ok {W A} e (o : option A) s a s' :
  of_option W e o s = Ok a s' -> o = Some a /\ s' = s.
Proof. destruct o; simpl; intro H; inversion H; auto. Qed.

Lemma lms_ok {W} i k s a s' : lms W i k s = Ok a s' -> dict_get (landmarks i) k = Some a /\ s' = s.
Proof. apply of_option_ok. Qed.

Lemma cond_emit_ok {W A} (b : bool) (e : event W) (x y : A) s a s' :
  (if b then emit W e ;;; ret W x else ret W y) s = Ok a s' ->
  a = (if b then x else y) /\ algorithms W s' = algorithms W s /\
  log W s' = log W s ++ (if b then [e] else []).
Proof.
  destruct b; intro H.
  - apply bind_ok in H as (u & s1 & H1 & H). inversion H1; subst. inversion H; subst. auto.
  - inversion H; subst. rewrite app_nil_r. auto.
Qed.

Lemma mapM_length {W A B} (f : A -> M W B) xs s ys s' :
  mapM W f xs s = Ok ys s' -> List.length ys = List.length xs.
Proof.
  revert s ys. induction xs as [|x xs IH]; intros s ys H; simpl in H.
  - inversion H; reflexivity.
  - apply bind_ok in H as (y & s1 & _ & H). apply bind_ok in H as (ys' & s2 & H2 & H).
    inversion H; subst. simpl. f_equal. eapply IH; eauto.
Qed.

Lemma mapM_Forall {W A B} (P : B -> Prop) (f : A -> M W B) xs s ys s' :
  (forall x s y s', f x s = Ok y s' -> P y) -> mapM W f xs s = Ok ys s' -> Forall P ys.
Proof.
  intro Hf. revert s ys. induction xs as [|x xs IH]; intros s ys H; simpl in H.
  - inversion H; constructor.
  - apply bind_ok in H as (y & s1 & H1 & H). apply bind_ok in H as (ys' & s2 & H2 & H).
    inversion H; subst. constructor; [eapply Hf; eauto | eapply IH; eauto].
Qed.

Lemma run_stage_ok {W} inc j imgs gts cs s out s' :
  run_stage W inc j imgs gts cs s = Ok out s' ->
  exists alg, nth_error (algorithms W s) j = Some alg /\
    out = snd (if inc then stage_increment W alg imgs gts cs else stage_train W alg imgs gts cs) /\
    log W s' = log W s ++ [EStage inc j imgs gts cs out].
Proof.
  intro H. unfold run_stage in H.
  apply bind_ok in H as (s1 & s2 & H1 & H). inversion H1; subst; clear H1.
  apply bind_ok in H as (alg & s3 & H3 & H). apply of_option_ok in H3 as [Ha ->].
  exists alg. split; [exact Ha|].
  destruct (if inc then stage_increment W alg imgs gts cs else stage_train W alg imgs gts cs)
    as [alg' out'] eqn:Eo.
  apply bind_ok in H as (u & s4 & H4 & H). inversion H4; subst; clear H4.
  apply bind_ok in H as (u' & s5 & H5 & H). inversion H5; subst; clear H5.
  inversion H; subst. auto.
Qed.

Lemma length_scaled_at {W} (cfg : config W) j fi :
  List.length (scaled_at cfg j fi) = List.length fi.
Proof.
  unfold scaled_at. destruct (nth_error (scales W cfg) j); [destruct (scale_neq_one W _)|];
    rewrite ?length_map; reflexivity.
Qed.

Lemma scale_step_spec {W} cfg inc ref group imgs keys j fi cs s fi' cs' s' :
  scale_step W cfg inc ref group imgs keys j fi cs s = Ok (fi', cs') s' ->
  exists f_j s_j gts cin cout alg,
    nth_error (features W cfg) j = Some f_j /\
    nth_error (scales W cfg) j = Some s_j /\
    fi' = (if recomputes cfg j then map (apply_feature W f_j) imgs else fi) /\
    (j = 0 -> exists c, cin = cs ++ c /\ List.length c = List.length imgs /\
                         Forall (fun l => List.length l = List.length keys) c) /\
    (j <> 0 -> cin = cs) /\
    nth_error (algorithms W s) j = Some alg /\
    cout = snd (if inc then stage_increment W alg (scaled_at cfg j fi') gts cin
                else stage_train W alg (scaled_at cfg j fi') gts cin) /\
    log W s' = log W s ++ (if recomputes cfg j then [EFeat j] else []) ++
                 (if scale_neq_one W s_j then [EScaleImgs j] else []) ++
                 [EStage inc j (scaled_at cfg j fi') gts cin cout] /\
    (j = n_scales W cfg - 1 -> cs' = cout) /\
    (j <> n_scales W cfg - 1 ->
       exists s_next, nth_error (scales W cfg) (S j) = Some s_next /\
         cs' = map (map (scale_apply W (scale_div W s_next s_j))) cout).
Proof.
  intro H. unfold scale_step in H. cbv zeta in H.
  apply bind_ok in H as (f_j & s1 & H1 & H). apply of_option_ok in H1 as [Ef ->].
  apply bind_ok in H as (rc & s2 & H2 & H).
  assert (rc = recomputes cfg j /\ s2 = s) as [-> ->].
  { destruct j as [|j']; simpl in H2.
    - inversion H2; auto.
    - apply bind_ok in H2 as (fp & s3 & H3 & H2). apply of_option_ok in H3 as [Ep ->].
      replace (j' - 0) with j' in Ep by lia.
      inversion H2; subst. unfold recomputes. rewrite Ef, Ep. auto. }
  apply bind_ok in H as (fi1 & s3 & H3 & H).
  apply cond_emit_ok in H3 as (-> & A3 & L3).
  apply bind_ok in H as (s_j & s4 & H4 & H). apply of_option_ok in H4 as [Es ->].
  apply bind_ok in H as (sc & s5 & H5 & H).
  apply cond_emit_ok in H5 as (Esc & A5 & L5).
  assert (Hsc : sc = scaled_at cfg j (if recomputes cfg j then map (apply_feature W f_j) imgs else fi))
    by (unfold scaled_at; rewrite Es; exact Esc).
  clear Esc. subst sc.
  apply bind_ok in H as (gts & s6 & H6 & H).
  assert (s6 = s5) by (eapply mapM_read_state; [intros ? ? ? ? Hx; apply lms_ok in Hx; apply Hx | exact H6]).
  subst s6.
  apply bind_ok in H as (cin & s7 & H7 & H).
  assert (Hcin : (j = 0 -> exists c, cin = cs ++ c /\ List.length c = List.length imgs /\
                         Forall (fun l => List.length l = List.length keys) c) /\
                 (j <> 0 -> cin = cs) /\ s7 = s5).
  { destruct (Nat.eqb_spec j 0) as [->|Hj].
    - apply bind_ok in H7 as (c & s8 & H8 & H7). inversion H7; subst; clear H7.
      split; [intros _|split; [congruence|]].
      + exists c. split; [reflexivity|]. split.
        * rewrite (mapM_length _ _ _ _ _ H8), length_scaled_at. simpl. apply length_map.
        * eapply mapM_Forall; [|exact H8]. intros i s9 l s10 H9. simpl.
          exact (mapM_length _ _ _ _ _ H9).
      + eapply mapM_read_state; [|exact H8]. intros i s9 l s10 H9.
        eapply mapM_read_state; [|exact H9]. intros k s11 b s12 H11.
        apply bind_ok in H11 as (bb & s13 & H13 & H11). apply lms_ok in H13 as [_ ->].
        inversion H11; reflexivity.
    - inversion H7; subst. split; [congruence|]. auto. }
  destruct Hcin as (Hc0 & Hc1 & ->).
  apply bind_ok in H as (cout & s8 & H8 & H).
  apply run_stage_ok in H8 as (alg & Ea & Eo & L8).
  apply bind_ok in H as (cs2 & s9 & H9 & H). cbv [ret] in H. injection H as E1 E2 E3.
  subst fi' cs' s'.
  assert (Hcs : s9 = s8 /\ (j = n_scales W cfg - 1 -> cs2 = cout) /\
                (j <> n_scales W cfg - 1 ->
                   exists s_next, nth_error (scales W cfg) (S j) = Some s_next /\
                     cs2 = map (map (scale_apply W (scale_div W s_next s_j))) cout)).
  { destruct (Nat.eqb_spec j (n_scales W cfg - 1)) as [Hn|Hn]; simpl in H9.
    - cbv [ret] in H9. injection H9 as <- <-. split; [auto | split; [auto | intro; contradiction]].
    - apply bind_ok in H9 as (s_next & s10 & H10 & H9). apply of_option_ok in H10 as [En ->].
      cbv [ret] in H9. injection H9 as <- <-. split; [reflexivity|]. split; [intro; contradiction|].
      intros _. exists s_next. rewrite <- En. split; [f_equal; lia | reflexivity]. }
  destruct Hcs as (-> & Hn1 & Hn2).
  exists f_j, s_j, gts, cin, cout, alg.
  split; [exact Ef|]. split; [exact Es|]. split; [reflexivity|]. split; [exact Hc0|].
  split; [exact Hc1|]. split; [rewrite A5, A3 in Ea; exact Ea|]. split; [exact Eo|]. split.
  - rewrite L8, L5, L3, <- !app_assoc. reflexivity.
  - split; assumption.
Qed.

(** ** The bounding-box keys *)

Lemma bb_keys_ok {W} b bb_group s ks s' :
  bb_keys W b bb_group s = Ok ks s' ->
  s' = s /\ exists p0 i0, hd_error b = Some p0 /\ nth_error (heap W s) p0 = Some i0 /\
    ks = keys_matching (landmarks i0) ("*" ++ bb_group ++ "*")%string.
Proof.
  intro H. unfold bb_keys in H.
  apply bind_ok in H as (p0 & s1 & H1 & H). apply of_option_ok in H1 as [Hb ->].
  apply bind_ok in H as (i0 & s2 & H2 & H). apply of_option_ok in H2 as [Hi ->].
  inversion H; subst. eauto 6.
Qed.

Lemma bb_keys_intro {W} b bb_group s p0 i0 :
  hd_error b = Some p0 -> nth_error (heap W s) p0 = Some i0 ->
  bb_keys W b bb_group s = Ok (keys_matching (landmarks i0) ("*" ++ bb_group ++ "*")%string) s.
Proof. intros Hb Hi. unfold bb_keys, bind, first, load. rewrite Hb. simpl. rewrite Hi. reflexivity. Qed.

(** C7 (amended): when the single seed box is the only key of the
    namespace and the generated keys ['{bb_group}_{j}'] are neither the seed
    key nor the ground-truth key, generating the perturbations calls the
    strategy, for every image [p] of the batch, [n_perturbations - 1] times
    with the bounding box of [p]'s ground-truth shape first and [p]'s seed
    box second, both as they were before the generation; nothing else is
    logged. *)
Theorem perturb_strategy_receives_gt_box_and_seed W cfg group bb_group b s p0 i0 seed_key ks s' :
  hd_error b = Some p0 -> nth_error (heap W s) p0 = Some i0 ->
  keys_matching (landmarks i0) ("*" ++ bb_group ++ "*")%string = [seed_key] ->
  (forall j, 1 <= j < n_perturbations W s ->
     perturb_key bb_group j <> seed_key /\ perturb_key bb_group j <> group) ->
  generate_perturbations W cfg group bb_group b s = Ok ks s' ->
  log W s' = log W s ++
    flat_map (expected_perturb_calls (heap W s) group seed_key (n_perturbations W s)) b.
Proof.
  intros Hb Hi Hk Hf H. unfold generate_perturbations in H.
  apply bind_ok in H as (keys & s1 & H1 & H).
  apply bb_keys_ok in H1 as (-> & p1 & i1 & Hb1 & Hi1 & ->).
  rewrite Hb in Hb1. injection Hb1 as <-. rewrite Hi in Hi1. injection Hi1 as <-. rewrite Hk in H.
  apply bind_ok in H as (s2 & s3 & H2 & H). cbv [get] in H2. injection H2 as <- <-.
  apply bind_ok in H as (u & s4 & H4 & H). simpl in H4.
  apply bb_keys_ok in H as (-> & _).
  assert (Hs : same_inputs_as group seed_key s s)
    by (split; [intro; reflexivity | split; [intro; reflexivity | reflexivity]]).
  exact (proj2 (perturb_images_step W cfg group bb_group seed_key s Hf b s u s4 Hs H4)).
Qed.

Lemma perturb_strategy_receives_gt_box_and_seed_witness :
  exists ks s',
    generate_perturbations W0 cfg0 "PTS" "__gt_bb_" [0] seed_state = Ok ks s' /\
    log W0 s' = log W0 seed_state ++
      flat_map (expected_perturb_calls (heap W0 seed_state) "PTS" "__gt_bb_0"
                  (n_perturbations W0 seed_state)) [0].
Proof.
  pose proof (ok_value W0 (generate_perturbations W0 cfg0 "PTS" "__gt_bb_" [0] seed_state) []
                ltac:(vm_compute; reflexivity)) as E.
  do 2 eexists. split; [exact E|].
  refine (perturb_strategy_receives_gt_box_and_seed W0 cfg0 "PTS" "__gt_bb_" [0] seed_state 0
            (img0 [("PTS", 5%Z); ("__gt_bb_0", 1005%Z)]) "__gt_bb_0" _ _ eq_refl eq_refl _ _ E).
  - vm_compute. reflexivity.
  - intros j Hj. simpl in Hj. assert (j = 1 \/ j = 2) as [-> | ->] by lia;
      split; intro Heq; vm_compute in Heq; discriminate Heq.
Defined.

(** C3: when the namespace holds more than one box, generating the
    perturbations returns exactly the supplied keys, adds no landmark to
    any image, sets [n_perturbations] to their number [m], and logs one
    warning exactly when [m] differs from the configured count. *)
Theorem supplied_boxes_reconcile_n_perturbations W cfg group bb_group b s p0 i0 ks :
  hd_error b = Some p0 -> nth_error (heap W s) p0 = Some i0 ->
  keys_matching (landmarks i0) ("*" ++ bb_group ++ "*")%string = ks -> 1 < List.length ks ->
  generate_perturbations W cfg group bb_group b s =
    Ok ks (mkState W (reference_shape W s) (List.length ks) (algorithms W s) (heap W s)
             (log W s ++ (if Nat.eqb (List.length ks) (n_perturbations W s) then []
                          else [EWarnPert (n_perturbations W s) (List.length ks)]))).
Proof.
  intros Hb Hi Hk Hl. unfold generate_perturbations.
  apply (bind_ok_intro W _ _ _ ks s); [rewrite <- Hk; exact (bb_keys_intro b bb_group s p0 i0 Hb Hi)|].
  cbv beta zeta. apply (bind_ok_intro W _ _ _ s s); [reflexivity|]. cbv beta.
  destruct (Nat.eqb_spec (List.length ks) 1) as [E1|_]; [lia|].
  destruct (Nat.eqb_spec (List.length ks) (n_perturbations W s)) as [Heq|Hne]; simpl.
  - apply (bind_ok_intro W _ _ _ tt s); [reflexivity|].
    rewrite <- Hk. rewrite (bb_keys_intro b bb_group s p0 i0 Hb Hi).
    rewrite Hk. destruct s as [r n al h l]. simpl in *. rewrite app_nil_r, Heq. reflexivity.
  - apply (bind_ok_intro W _ _ _ tt
             (mkState W (reference_shape W s) (List.length ks) (algorithms W s) (heap W s)
                (log W s ++ [EWarnPert (n_perturbations W s) (List.length ks)]))).
    + reflexivity.
    + match goal with
      | |- context [bb_keys W b bb_group ?st] =>
          rewrite (bb_keys_intro b bb_group st p0 i0 Hb Hi)
      end.
      rewrite Hk. reflexivity.
Qed.

Lemma supplied_boxes_reconcile_n_perturbations_witness :
  generate_perturbations W0 cfg0 "PTS" "bb" [0] boxes_state =
    Ok ["bb_a"; "bb_b"]
       (mkState W0 (reference_shape W0 boxes_state) (List.length ["bb_a"; "bb_b"])
          (algorithms W0 boxes_state) (heap W0 boxes_state)
          (log W0 boxes_state ++
             (if Nat.eqb (List.length ["bb_a"; "bb_b"]) (n_perturbations W0 boxes_state) then []
              else [EWarnPert (n_perturbations W0 boxes_state) (List.length ["bb_a"; "bb_b"])]))).
Proof.
  apply (supplied_boxes_reconcile_n_perturbations W0 cfg0 "PTS" "bb" [0] boxes_state 0 boxes_image).
  - reflexivity.
  - reflexivity.
  - vm_compute. reflexivity.
  - simpl. lia.
Defined.

(** C2 (code defect): the generated keys ['{bb_group}_{j}'] can collide with
    the seed key. With [bounding_box_group = 'bb'], one image whose only box
    is ['bb_1'] = 2 (ground truth 5, so the reference shape is 5) and
    [n_perturbations = 3], the first generated box overwrites the seed
    ['bb_1'], the second is perturbed from that overwritten box (1025, not
    2), the batch copy ends with two boxes instead of three, and the
    estimates given to the first stage are [[1030; 11260]]: the shape
    aligned with the seed box, 5 + 2 = 7, is not among them. *)
Theorem seed_box_overwritten_by_generated_key :
  let r := SupervisedDescentFitter W0 cfg0 (fun _ => 0) collide_images [0] None (Some "bb") None 3 None in
  is_ok r = true /\
  reference_shape W0 (res_state r) = Some 5%Z /\
  flat_map perturb_tag (log W0 (res_state r)) = [(1005%Z, 2%Z); (1005%Z, 1025%Z)] /\
  map (fun i => map fst (landmarks i)) (heap W0 (res_state r)) = [["PTS"; "bb_1"]; ["PTS"; "bb_1"; "bb_2"]] /\
  flat_map stage_inputs (log W0 (res_state r)) = [(0, [[1030%Z; 11260%Z]]); (1, [[2062%Z; 22522%Z]])] /\
  align_shape_with_bounding_box W0 5%Z 2%Z = 7%Z.
Proof.
  cbv zeta. repeat split; vm_compute; reflexivity.
Qed.

(** ** The scale loop, scale after scale *)

Lemma scale_loop_features {W} cfg inc ref group imgs keys m :
  forall a fi cs s r s',
  (0 < a -> exists f, nth_error (features W cfg) (a - 1) = Some f /\
                      fi = map (apply_feature W f) imgs) ->
  scale_loop W cfg inc ref group imgs keys (seq a m) fi cs s = Ok r s' ->
  exists ev, log W s' = log W s ++ ev /\
    flat_map feat_tag ev = filter (recomputes cfg) (seq a m) /\
    (forall j imgs', In (j, imgs') (flat_map stage_images ev) ->
       exists f_j, nth_error (features W cfg) j = Some f_j /\
         imgs' = scaled_at cfg j (map (apply_feature W f_j) imgs)).
Proof.
  induction m as [|m IH]; intros a fi cs s r s' Hfi H; simpl in H.
  - cbv [ret] in H. injection H as _ <-. exists []. rewrite app_nil_r.
    split; [reflexivity|]. split; [reflexivity|]. intros j i [].
  - apply bind_ok in H as ([fi1 cs1] & s1 & H1 & H). simpl in H.
    apply scale_step_spec in H1
      as (f_a & s_a & gts & cin & cout & alg & Ef & Es & Efi & _ & _ & _ & _ & L1 & _ & _).
    assert (Hfi1 : fi1 = map (apply_feature W f_a) imgs).
    { rewrite Efi. destruct (recomputes cfg a) eqn:Er; [reflexivity|].
      destruct a as [|a']; [discriminate|].
      destruct (Hfi ltac:(lia)) as (f & Ef' & ->).
      replace (S a' - 1) with a' in Ef' by lia.
      unfold recomputes in Er. rewrite Ef, Ef' in Er.
      apply negb_false_iff, Nat.eqb_eq in Er. subst. reflexivity. }
    destruct (IH (S a) fi1 cs1 s1 r s') as (ev & L & F & HI); [|exact H|].
    { intros _. exists f_a. replace (S a - 1) with a by lia. auto. }
    exists ((if recomputes cfg a then [EFeat a] else []) ++
            (if scale_neq_one W s_a then [EScaleImgs a] else []) ++
            [EStage inc a (scaled_at cfg a fi1) gts cin cout] ++ ev).
    split; [rewrite L, L1, <- !app_assoc; reflexivity|].
    split.
    + rewrite !flat_map_app, F. simpl.
      destruct (recomputes cfg a); destruct (scale_neq_one W s_a); reflexivity.
    + intros j i Hin. rewrite !flat_map_app in Hin.
      apply in_app_or in Hin as [Hin|Hin];
        [destruct (recomputes cfg a); simpl in Hin; contradiction|].
      apply in_app_or in Hin as [Hin|Hin];
        [destruct (scale_neq_one W s_a); simpl in Hin; contradiction|].
      apply in_app_or in Hin as [Hin|Hin]; [|exact (HI j i Hin)].
      simpl in Hin. destruct Hin as [Hin|[]]. injection Hin as <- <-.
      exists f_a. rewrite Hfi1. auto.
Qed.

Lemma scale_loop_transforms {W} cfg inc ref group imgs keys m :
  forall a fi cs s r s',
  a + m = n_scales W cfg ->
  scale_loop W cfg inc ref group imgs keys (seq a m) fi cs s = Ok r s' ->
  exists ev, log W s' = log W s ++ ev /\
    map (fun t => fst (fst t)) (flat_map stage_trace ev) = seq a m /\
    (0 < a -> forall x, hd_error (flat_map stage_trace ev) = Some x -> snd (fst x) = cs) /\
    (forall k x y, nth_error (flat_map stage_trace ev) k = Some x ->
       nth_error (flat_map stage_trace ev) (S k) = Some y ->
       exists sj sn, nth_error (scales W cfg) (a + k) = Some sj /\
         nth_error (scales W cfg) (S (a + k)) = Some sn /\
         snd (fst y) = map (map (scale_apply W (scale_div W sn sj))) (snd x)) /\
    (m = 0 -> r = cs) /\
    (forall x, nth_error (flat_map stage_trace ev) (m - 1) = Some x -> r = snd x).
Proof.
  induction m as [|m IH]; intros a fi cs s r s' Hn H; simpl in H.
  - cbv [ret] in H. injection H as <- <-. exists []. rewrite app_nil_r.
    split; [reflexivity|]. split; [reflexivity|]. split; [discriminate|].
    split; [intros k x y Hx; destruct k; discriminate|].
    split; [reflexivity|]. intros x Hx. discriminate.
  - apply bind_ok in H as ([fi1 cs1] & s1 & H1 & H). simpl in H.
    apply scale_step_spec in H1
      as (f_a & s_a & gts & cin & cout & alg & Ef & Es & Efi & _ & Hc1 & _ & _ & L1 & Hl & Hnl).
    destruct (IH (S a) fi1 cs1 s1 r s') as (ev & L & J & Hd & Hk & Hm0 & Hlast);
      [lia | exact H |].
    exists ((if recomputes cfg a then [EFeat a] else []) ++
            (if scale_neq_one W s_a then [EScaleImgs a] else []) ++
            [EStage inc a (scaled_at cfg a fi1) gts cin cout] ++ ev).
    assert (Htr : flat_map stage_trace
                    ((if recomputes cfg a then [EFeat a] else []) ++
                     (if scale_neq_one W s_a then [EScaleImgs a] else []) ++
                     [EStage inc a (scaled_at cfg a fi1) gts cin cout] ++ ev)
                  = ((a, cin), cout) :: flat_map stage_trace ev).
    { rewrite !flat_map_app.
      destruct (recomputes cfg a); destruct (scale_neq_one W s_a); reflexivity. }
    rewrite Htr.
    split; [rewrite L, L1, <- !app_assoc; reflexivity|].
    split; [simpl; rewrite J; reflexivity|].
    split; [intros Ha x Hx; simpl in Hx; injection Hx as <-; apply Hc1; lia|].
    split; [|split; [discriminate|]].
    + intros [|k] x y Hx Hy.
      * simpl in Hx, Hy. injection Hx as <-.
        destruct m as [|m]; [destruct ev as [|e ev]; [discriminate|]|].
        { destruct (flat_map stage_trace (e :: ev)); discriminate. }
        destruct Hnl as (s_next & En & Ec); [lia|].
        exists s_a, s_next. rewrite Nat.add_0_r. split; [exact Es|]. split; [exact En|].
        simpl. rewrite <- Ec. apply (Hd ltac:(lia)). exact Hy.
      * simpl in Hx, Hy. destruct (Hk k x y Hx Hy) as (sj & sn & E1 & E2 & E3).
        exists sj, sn. replace (a + S k) with (S a + k) by lia. auto.
    + intros x Hx. destruct m as [|m].
      * simpl in Hx. injection Hx as <-. rewrite (Hm0 eq_refl). apply Hl. lia.
      * simpl in Hx. replace (m - 0) with m in Hx by lia. apply Hlast.
        replace (S m - 1) with m by lia. exact Hx.
Qed.

Lemma lengths_repeat {A} (c : list (list A)) n k :
  Forall (fun l => List.length l = k) c -> List.length c = n ->
  map (@List.length A) c = repeat k n.
Proof.
  intro Hf. revert n. induction Hf as [|l c Hl Hf IH]; intros n Hn; simpl in *.
  - subst. reflexivity.
  - destruct n as [|n]; [discriminate|]. rewrite Hl, (IH n); auto.
Qed.

Lemma lengths_map_map {A B} (f : A -> B) (c : list (list A)) :
  map (@List.length B) (map (map f) c) = map (@List.length A) c.
Proof. rewrite map_map. apply map_ext. intro. apply length_map. Qed.

Section Counts.

Variable W : World.
Hypothesis train_keeps_counts : forall alg imgs gts cs,
  map (@List.length _) (snd (stage_train W alg imgs gts cs)) = map (@List.length _) cs.
Hypothesis increment_keeps_counts : forall alg imgs gts cs,
  map (@List.length _) (snd (stage_increment W alg imgs gts cs)) = map (@List.length _) cs.

Lemma scale_loop_counts cfg inc ref group imgs keys m :
  forall a fi cs s r s',
  (a = 0 -> cs = []) ->
  (0 < a -> map (@List.length _) cs = repeat (List.length keys) (List.length imgs)) ->
  scale_loop W cfg inc ref group imgs keys (seq a m) fi cs s = Ok r s' ->
  exists ev, log W s' = log W s ++ ev /\
    (forall cin cout, In (cin, cout) (flat_map stage_io ev) ->
       map (@List.length _) cin = repeat (List.length keys) (List.length imgs) /\
       map (@List.length _) cout = repeat (List.length keys) (List.length imgs)) /\
    (0 < a + m -> map (@List.length _) r = repeat (List.length keys) (List.length imgs)).
Proof.
  induction m as [|m IH]; intros a fi cs s r s' H0 Hpos H; simpl in H.
  - cbv [ret] in H. injection H as <- <-. exists []. rewrite app_nil_r.
    split; [reflexivity|]. split; [intros ? ? []|]. intro. apply Hpos. lia.
  - apply bind_ok in H as ([fi1 cs1] & s1 & H1 & H). simpl in H.
    apply scale_step_spec in H1
      as (f_a & s_a & gts & cin & cout & alg & _ & _ & _ & Hc0 & Hc1 & _ & Eo & L1 & Hl & Hnl).
    assert (Hin : map (@List.length _) cin = repeat (List.length keys) (List.length imgs)).
    { destruct (Nat.eq_dec a 0) as [Ha|Ha].
      - destruct (Hc0 Ha) as (c & -> & Lc & Fc). rewrite (H0 Ha). simpl.
        apply lengths_repeat; assumption.
      - rewrite (Hc1 Ha). apply Hpos. lia. }
    assert (Hout : map (@List.length _) cout = repeat (List.length keys) (List.length imgs)).
    { rewrite Eo. destruct inc; rewrite ?train_keeps_counts, ?increment_keeps_counts; exact Hin. }
    assert (Hcs1 : map (@List.length _) cs1 = repeat (List.length keys) (List.length imgs)).
    { destruct (Nat.eq_dec a (n_scales W cfg - 1)) as [Ha|Ha].
      - rewrite (Hl Ha). exact Hout.
      - destruct (Hnl Ha) as (s_next & _ & ->). rewrite lengths_map_map. exact Hout. }
    destruct (IH (S a) fi1 cs1 s1 r s') as (ev & L & Hio & Hr);
      [discriminate | intros _; exact Hcs1 | exact H |].
    exists ((if recomputes cfg a then [EFeat a] else []) ++
            (if scale_neq_one W s_a then [EScaleImgs a] else []) ++
            [EStage inc a (scaled_at cfg a fi1) gts cin cout] ++ ev).
    split; [rewrite L, L1, <- !app_assoc; reflexivity|].
    split.
    + intros ci co Hx. rewrite !flat_map_app in Hx.
      apply in_app_or in Hx as [Hx|Hx];
        [destruct (recomputes cfg a); simpl in Hx; contradiction|].
      apply in_app_or in Hx as [Hx|Hx];
        [destruct (scale_neq_one W s_a); simpl in Hx; contradiction|].
      apply in_app_or in Hx as [Hx|Hx]; [|exact (Hio ci co Hx)].
      simpl in Hx. destruct Hx as [Hx|[]]. injection Hx as <- <-. auto.
    + intros _. apply Hr. lia.
Qed.

End Counts.

Lemma W0_train_keeps_counts alg imgs gts (cs : list (list (shape_t W0))) :
  map (@List.length _) (snd (stage_train W0 alg imgs gts cs)) = map (@List.length _) cs.
Proof. apply lengths_map_map. Qed.

Lemma W0_increment_keeps_counts alg imgs gts (cs : list (list (shape_t W0))) :
  map (@List.length _) (snd (stage_increment W0 alg imgs gts cs)) = map (@List.length _) cs.
Proof. apply lengths_map_map. Qed.

(** C5: over the scales of a batch, features are computed at scale [j]
    exactly when [j = 0] or [features[j]] differs from [features[j - 1]]
    (in that order, once each), and the stage of every scale [j] receives
    the images made from [features[j]] applied to the batch: a scale whose
    feature function equals the previous one computes nothing and reuses
    the previous feature images. *)
Theorem features_recomputed_only_when_changed W cfg inc ref group imgs keys s r s' :
  scale_loop W cfg inc ref group imgs keys (seq 0 (n_scales W cfg)) [] [] s = Ok r s' ->
  exists ev, log W s' = log W s ++ ev /\
    flat_map feat_tag ev = filter (recomputes cfg) (seq 0 (n_scales W cfg)) /\
    (forall j imgs', In (j, imgs') (flat_map stage_images ev) ->
       exists f_j, nth_error (features W cfg) j = Some f_j /\
         imgs' = scaled_at cfg j (map (apply_feature W f_j) imgs)).
Proof.
  intro H. eapply scale_loop_features; [|exact H]. intro Ha. inversion Ha.
Qed.

Lemma features_recomputed_only_when_changed_witness :
  filter (recomputes cfg0) (seq 0 (n_scales W0 cfg0)) = [0] /\
  exists r s',
    scale_loop W0 cfg0 false 5%Z "PTS" loop_imgs loop_keys (seq 0 (n_scales W0 cfg0)) [] []
      loop_state = Ok r s' /\
    exists ev, log W0 s' = log W0 loop_state ++ ev /\
      flat_map feat_tag ev = filter (recomputes cfg0) (seq 0 (n_scales W0 cfg0)) /\
      (forall j imgs', In (j, imgs') (flat_map stage_images ev) ->
         exists f_j, nth_error (features W0 cfg0) j = Some f_j /\
           imgs' = scaled_at cfg0 j (map (apply_feature W0 f_j) loop_imgs)).
Proof.
  split; [vm_compute; reflexivity|].
  pose proof (ok_value W0
                (scale_loop W0 cfg0 false 5%Z "PTS" loop_imgs loop_keys (seq 0 (n_scales W0 cfg0))
                   [] [] loop_state) [] ltac:(vm_compute; reflexivity)) as E.
  do 2 eexists. split; [exact E|].
  exact (features_recomputed_only_when_changed W0 cfg0 false 5%Z "PTS" loop_imgs loop_keys
           loop_state _ _ E).
Defined.

(** C6: the stages of a batch run for the scales [0 .. n_scales - 1] in
    order; the current shapes given to the stage of scale [j + 1] are the
    ones returned by the stage of scale [j], every shape of every image
    mapped by the isotropic scale [scales[j + 1] / scales[j]]; the shapes
    returned by the last stage are the result, not transformed. *)
Theorem shapes_rescaled_between_scales W cfg inc ref group imgs keys s r s' :
  scale_loop W cfg inc ref group imgs keys (seq 0 (n_scales W cfg)) [] [] s = Ok r s' ->
  exists ev, log W s' = log W s ++ ev /\
    map (fun t => fst (fst t)) (flat_map stage_trace ev) = seq 0 (n_scales W cfg) /\
    (forall j x y, nth_error (flat_map stage_trace ev) j = Some x ->
       nth_error (flat_map stage_trace ev) (S j) = Some y ->
       exists sj sn, nth_error (scales W cfg) j = Some sj /\
         nth_error (scales W cfg) (S j) = Some sn /\
         snd (fst y) = map (map (scale_apply W (scale_div W sn sj))) (snd x)) /\
    (forall x, nth_error (flat_map stage_trace ev) (n_scales W cfg - 1) = Some x -> r = snd x).
Proof.
  intro H. destruct (scale_loop_transforms cfg inc ref group imgs keys (n_scales W cfg) 0 [] []
                       s r s' eq_refl H) as (ev & L & J & _ & Hk & _ & Hl).
  exists ev. split; [exact L|]. split; [exact J|]. split; [exact Hk|exact Hl].
Qed.

Lemma shapes_rescaled_between_scales_witness :
  exists r s',
    scale_loop W0 cfg0 false 5%Z "PTS" loop_imgs loop_keys (seq 0 (n_scales W0 cfg0)) [] []
      loop_state = Ok r s' /\
    exists ev, log W0 s' = log W0 loop_state ++ ev /\
      map (fun t => fst (fst t)) (flat_map stage_trace ev) = seq 0 (n_scales W0 cfg0) /\
      (forall j x y, nth_error (flat_map stage_trace ev) j = Some x ->
         nth_error (flat_map stage_trace ev) (S j) = Some y ->
         exists sj sn, nth_error (scales W0 cfg0) j = Some sj /\
           nth_error (scales W0 cfg0) (S j) = Some sn /\
           snd (fst y) = map (map (scale_apply W0 (scale_div W0 sn sj))) (snd x)) /\
      (forall x, nth_error (flat_map stage_trace ev) (n_scales W0 cfg0 - 1) = Some x -> r = snd x).
Proof.
  pose proof (ok_value W0
                (scale_loop W0 cfg0 false 5%Z "PTS" loop_imgs loop_keys (seq 0 (n_scales W0 cfg0))
                   [] [] loop_state) [] ltac:(vm_compute; reflexivity)) as E.
  do 2 eexists. split; [exact E|].
  exact (shapes_rescaled_between_scales W0 cfg0 false 5%Z "PTS" loop_imgs loop_keys
           loop_state _ _ E).
Defined.

(** C8: when every stage returns, for each image, as many estimates as it
    received, then within a batch every stage receives and returns, for
    every image, one estimate per bounding-box key [keys] of the batch, and
    so does the result of the last scale. *)
Theorem estimates_per_image_constant_in_batch W cfg inc ref group imgs keys s r s' :
  (forall alg imgs gts cs,
     map (@List.length _) (snd (stage_train W alg imgs gts cs)) = map (@List.length _) cs) ->
  (forall alg imgs gts cs,
     map (@List.length _) (snd (stage_increment W alg imgs gts cs)) = map (@List.length _) cs) ->
  scale_loop W cfg inc ref group imgs keys (seq 0 (n_scales W cfg)) [] [] s = Ok r s' ->
  exists ev, log W s' = log W s ++ ev /\
    (forall cin cout, In (cin, cout) (flat_map stage_io ev) ->
       map (@List.length _) cin = repeat (List.length keys) (List.length imgs) /\
       map (@List.length _) cout = repeat (List.length keys) (List.length imgs)) /\
    (0 < n_scales W cfg ->
       map (@List.length _) r = repeat (List.length keys) (List.length imgs)).
Proof.
  intros Ht Hi H.
  exact (scale_loop_counts W Ht Hi cfg inc ref group imgs keys (n_scales W cfg) 0 [] [] s r s'
           (fun _ => eq_refl) (fun Ha => match Nat.lt_irrefl 0 Ha with end) H).
Qed.

Lemma estimates_per_image_constant_in_batch_witness :
  exists r s',
    scale_loop W0 cfg0 false 5%Z "PTS" loop_imgs loop_keys (seq 0 (n_scales W0 cfg0)) [] []
      loop_state = Ok r s' /\
    exists ev, log W0 s' = log W0 loop_state ++ ev /\
      (forall cin cout, In (cin, cout) (flat_map stage_io ev) ->
         map (@List.length _) cin = repeat (List.length loop_keys) (List.length loop_imgs) /\
         map (@List.length _) cout = repeat (List.length loop_keys) (List.length loop_imgs)) /\
      (0 < n_scales W0 cfg0 ->
         map (@List.length _) r = repeat (List.length loop_keys) (List.length loop_imgs)).
Proof.
  pose proof (ok_value W0
                (scale_loop W0 cfg0 false 5%Z "PTS" loop_imgs loop_keys (seq 0 (n_scales W0 cfg0))
                   [] [] loop_state) [] ltac:(vm_compute; reflexivity)) as E.
  do 2 eexists. split; [exact E|].
  exact (estimates_per_image_constant_in_batch W0 cfg0 false 5%Z "PTS" loop_imgs loop_keys
           loop_state _ _ W0_train_keeps_counts W0_increment_keeps_counts E).
Defined.

(** ** The caller's image objects *)

Lemma keeps_forM_in {W A} (I : state W -> Prop) xs (f : A -> M W unit) :
  (forall x, In x xs -> keeps I (f x)) -> keeps I (forM_ W xs f).
Proof.
  intro Hf. induction xs as [|x xs IH]; simpl; [intros s Hs; exact Hs|].
  apply keeps_bind; [apply Hf; left; reflexivity|]. intro. apply IH. intros y Hy. apply Hf. right. exact Hy.
Qed.

(** a later step may rely on what the earlier one returned *)
Lemma keeps_bind_ok {W A B} (I : state W -> Prop) (m : M W A) (k : A -> M W B) :
  keeps I m -> (forall s a s1, I s -> m s = Ok a s1 -> keeps I (k a)) -> keeps I (bind W m k).
Proof.
  intros Hm Hk s Hs. unfold bind. specialize (Hm s Hs).
  destruct (m s) as [e s1 | a s1] eqn:E; simpl in *; [exact Hm|]. exact (Hk s a s1 Hs E s1 Hm).
Qed.

Lemma list_set_app_r {A} (xs ys : list A) p v :
  List.length xs <= p -> list_set (xs ++ ys) p v = xs ++ list_set ys (p - List.length xs) v.
Proof.
  revert p. induction xs as [|x xs IH]; intros p Hp; simpl.
  - rewrite Nat.sub_0_r. reflexivity.
  - destruct p as [|p]; simpl in Hp; [lia|]. simpl. rewrite IH by lia. reflexivity.
Qed.

(** [rescale_images_to_reference_shape] returns new objects, past the heap it started from *)
Lemma rescale_fresh {W} b group ref s ps s' :
  rescale_images_to_reference_shape W b group ref s = Ok ps s' ->
  Forall (fun p => List.length (heap W s) <= p) ps /\
  List.length (heap W s) <= List.length (heap W s').
Proof.
  unfold rescale_images_to_reference_shape. revert s ps.
  induction b as [|p b IH]; intros s ps H; simpl in H.
  - cbv [ret] in H. injection H as <- <-. auto.
  - apply bind_ok in H as (q & s1 & H1 & H). apply bind_ok in H as (qs & s2 & H2 & H).
    cbv [ret] in H. injection H as <- <-.
    apply bind_ok in H1 as (i & s3 & H3 & H1). unfold load in H3.
    apply of_option_ok in H3 as [_ ->].
    apply bind_ok in H1 as (gt & s4 & H4 & H1). apply lms_ok in H4 as [_ ->].
    cbv [alloc] in H1. injection H1 as <- <-.
    destruct (IH _ _ H2) as [F L]. simpl in F, L. rewrite length_app in F, L. simpl in F, L.
    split; [constructor; [lia|] | lia].
    eapply Forall_impl; [|exact F]. simpl. intros. lia.
Qed.

Section HeapFrame.

Variable W : World.
Variable h0 : list (image (pix_t W) (shape_t W)).

Local Notation ext := (extends h0).

Lemma ext_pure {A} (m : M W A) : (forall s, heap W (res_state (m s)) = heap W s) -> keeps ext m.
Proof. intros H s [rest Hs]. exists rest. rewrite H. exact Hs. Qed.

Lemma ext_ret {A} (a : A) : keeps ext (ret W a).
Proof. apply ext_pure. reflexivity. Qed.

Lemma ext_of_option {A} e (o : option A) : keeps ext (of_option W e o).
Proof. apply ext_pure. intro s. destruct o; reflexivity. Qed.

Lemma ext_load p : keeps ext (load W p).
Proof. apply ext_pure. intro s. unfold load. destruct (nth_error _ _); reflexivity. Qed.

Lemma ext_lms i k : keeps ext (lms W i k).
Proof. apply ext_of_option. Qed.

Lemma ext_first {A} (xs : list A) : keeps ext (first W xs).
Proof. apply ext_of_option. Qed.

Lemma ext_get : keeps ext (get W).
Proof. apply ext_pure. reflexivity. Qed.

Lemma ext_emit e : keeps ext (emit W e).
Proof. apply ext_pure. reflexivity. Qed.

Lemma ext_alloc i : keeps ext (alloc W i).
Proof. intros s [rest Hs]. exists (rest ++ [i]). simpl. rewrite Hs, app_assoc. reflexivity. Qed.

Lemma ext_set_reference_shape r : keeps ext (set_reference_shape W r).
Proof. apply ext_pure. reflexivity. Qed.

Lemma ext_set_n_perturbations n : keeps ext (set_n_perturbations W n).
Proof. apply ext_pure. reflexivity. Qed.

Lemma ext_set_algorithm j a : keeps ext (set_algorithm W j a).
Proof. apply ext_pure. reflexivity. Qed.

(** writing a landmark on an object past [h0] *)
Lemma ext_set_landmark p k v : List.length h0 <= p -> keeps ext (set_landmark W p k v).
Proof.
  intro Hp. unfold set_landmark. apply keeps_bind; [apply ext_load|].
  intros i s [rest Hs]. simpl. rewrite Hs, list_set_app_r by exact Hp. eexists. reflexivity.
Qed.

Lemma ext_length s : ext s -> List.length h0 <= List.length (heap W s).
Proof. intros [rest ->]. rewrite length_app. lia. Qed.

Create HintDb frame.
Hint Resolve ext_ret ext_of_option ext_load ext_lms ext_first ext_get ext_emit ext_alloc
  ext_set_reference_shape ext_set_n_perturbations ext_set_algorithm : frame.

Ltac kpf :=
  repeat first
    [ progress (intros)
    | progress (cbv zeta)
    | solve [auto with frame]
    | (apply ext_set_landmark; solve [auto])
    | apply keeps_mapM
    | apply keeps_forM_in
    | apply keeps_bind
    | match goal with |- keeps _ (match ?x with _ => _ end) => destruct x end ].

Lemma ext_train_batch_tail cfg inc bbg ref group b :
  keeps ext
    (image_batch <- rescale_images_to_reference_shape W b group ref ;;
     bb_group <- resolve_bb_group W bbg group image_batch ;;
     all_bb_keys <- generate_perturbations W cfg group bb_group image_batch ;;
     imgs <- mapM W (load W) image_batch ;;
     scale_loop W cfg inc ref group imgs all_bb_keys (seq 0 (n_scales W cfg)) [] [] ;;;
     ret W group).
Proof.
  apply keeps_bind_ok; [unfold rescale_images_to_reference_shape; kpf|].
  intros s ps s1 Hs Hr.
  assert (Hps : forall p, In p ps -> List.length h0 <= p).
  { intros p Hp. destruct (rescale_fresh _ _ _ _ _ _ Hr) as [F _].
    rewrite Forall_forall in F. specialize (F p Hp). pose proof (ext_length s Hs). lia. }
  unfold resolve_bb_group, generate_perturbations, perturb_image, bb_keys.
  apply keeps_bind; [kpf|]. intro.
  apply keeps_bind; [kpf|]. intro.
  apply keeps_bind; [kpf|]. intro.
  apply keeps_bind; [|intro; kpf].
  generalize (seq 0 (n_scales W cfg)) as js, (@nil (image (pix_t W) (shape_t W))) as fi,
    (@nil (list (shape_t W))) as cs.
  intro js. induction js as [|j js IH]; intros fi cs; simpl; [kpf|].
  apply keeps_bind; [|intro; apply IH].
  unfold scale_step, run_stage. kpf.
Qed.

Lemma ext_train_batch cfg group bbg bs inc b : keeps ext (train_batch W cfg group bbg bs inc b).
Proof.
  unfold train_batch. apply keeps_bind; [unfold resolve_group; kpf|]. intro g.
  apply keeps_bind; [unfold ensure_reference_shape, set_reference_shape; kpf|]. intro ref.
  apply ext_train_batch_tail.
Qed.

Lemma ext_train_batches cfg group bbg bs inc k batches :
  keeps ext (train_batches W cfg group bbg bs inc k batches).
Proof.
  revert group inc k. induction batches as [|b batches IH]; intros group inc k; simpl; [kpf|].
  apply keeps_bind; [apply ext_train_batch | intro; apply IH].
Qed.

End HeapFrame.

(** C10 (amended): training and increment leave the caller's image objects
    unchanged: whatever the run does, also when it raises, the heap it ends
    with starts with the heap it was given. The box under ['__gt_bb_0'] and
    the perturbed boxes are written on the rescaled per-batch copies, which
    are allocated past it. *)
Theorem train_and_increment_keep_caller_images W cfg images group bbg bs s :
  (exists rest,
     heap W (res_state (train_impl W cfg images group bbg false bs s)) = heap W s ++ rest) /\
  (exists rest,
     heap W (res_state (increment W cfg images group bbg bs s)) = heap W s ++ rest).
Proof.
  assert (Hs : extends (heap W s) s) by (exists []; rewrite app_nil_r; reflexivity).
  unfold increment, train_impl. split.
  - exact (ext_train_batches W (heap W s) cfg group bbg bs false 0 _ s Hs).
  - exact (ext_train_batches W (heap W s) cfg group bbg bs true 0 _ s Hs).
Qed.

(** C10 (as written): the caller's images keep the landmarks the run
    attaches. With one caller image (ground truth 5), no bounding-box group
    and 3 perturbations, the run succeeds and the caller's image 0 has no
    ['__gt_bb_0'] afterwards; its rescaled copy 1 has it. *)
Lemma caller_images_mutated_counterexample :
  ~ (forall s', train_impl W0 cfg0 [0] None None false None start_one = Ok tt s' ->
       lm_of (heap W0 s') 0 "__gt_bb_0" <> None).
Proof.
  intro H.
  pose proof (ok_unit W0 (train_impl W0 cfg0 [0] None None false None start_one)
                ltac:(vm_compute; reflexivity)) as E.
  apply (H _ E). vm_compute. reflexivity.
Qed.

(** * Further properties of the code *)

(** ** Empty input and missing landmarks *)


Lemma bind_err {W A B} (m : M W A) (k : A -> M W B) s e s' :
  m s = Err e s' -> bind W m k s = Err e s'.
Proof. intro H. unfold bind. rewrite H. reflexivity. Qed.

Lemma read_gts_key_error {W} g b s p i :
  (forall q, In q b -> nth_error (heap W s) q <> None) ->
  In p b -> nth_error (heap W s) p = Some i -> dict_get (landmarks i) g = None ->
  mapM W (fun p => i <- load W p ;; lms W i g) b s = Err KeyError s.
Proof.
  intros Hv. induction b as [|q b IH]; intros Hp Hi Hg; [destruct Hp|]. simpl.
  destruct (nth_error (heap W s) q) as [iq|] eqn:Eq;
    [|exfalso; exact (Hv q (or_introl eq_refl) Eq)].
  destruct (dict_get (landmarks iq) g) as [gq|] eqn:Eg.
  - apply (bind_ok_intro W _ _ _ gq s).
    { unfold bind, load, lms. rewrite Eq. simpl. rewrite Eg. reflexivity. }
    apply bind_err. apply IH; auto.
    + intros q' Hq'. apply Hv. right. exact Hq'.
    + destruct Hp as [<-|Hp]; [congruence | exact Hp].
  - apply bind_err. unfold bind, load, lms. rewrite Eq. simpl. rewrite Eg. reflexivity.
Qed.

(** X2: when no reference shape is set, a group is given and an image of
    the first batch has no landmarks under it, the run raises [KeyError]
    while reading the ground-truth shapes for the reference shape: the
    reference shape stays unset, no image, stage or perturbation count
    changes, and the log gains only the no-reference-shape warning (when
    [batch_size] is set). *)
Theorem missing_ground_truth_raises_key_error W cfg images g bbg inc bs s b0 rest p i :
  reference_shape W s = None ->
  image_batches images bs = b0 :: rest ->
  (forall q, In q b0 -> nth_error (heap W s) q <> None) ->
  In p b0 -> nth_error (heap W s) p = Some i -> dict_get (landmarks i) g = None ->
  train_impl W cfg images (Some g) bbg inc bs s =
    Err KeyError (mkState W None (n_perturbations W s) (algorithms W s) (heap W s)
                    (log W s ++ match bs with Some _ => [EWarnRef] | None => [] end)).
Proof.
  intros Hn Hb Hv Hp Hi Hg. unfold train_impl. rewrite Hb. simpl.
  apply bind_err. unfold train_batch.
  apply (bind_ok_intro W _ _ _ g s); [reflexivity|].
  apply bind_err. unfold ensure_reference_shape.
  apply (bind_ok_intro W _ _ _ s s); [reflexivity|]. rewrite Hn.
  destruct s as [r n al h l]; simpl in *. subst r.
  destruct bs as [k|].
  - apply (bind_ok_intro W _ _ _ tt (mkState W None n al h (l ++ [EWarnRef]))); [reflexivity|].
    apply bind_err. exact (read_gts_key_error g b0 (mkState W None n al h (l ++ [EWarnRef])) p i Hv Hp Hi Hg).
  - apply (bind_ok_intro W _ _ _ tt (mkState W None n al h l)); [reflexivity|].
    apply bind_err. rewrite app_nil_r. exact (read_gts_key_error g b0 (mkState W None n al h l) p i Hv Hp Hi Hg).
Qed.

Lemma missing_ground_truth_raises_key_error_witness :
  train_impl W0 cfg0 [0; 1] (Some "PTS") None false None missing_gt_state =
    Err KeyError (mkState W0 None (n_perturbations W0 missing_gt_state)
                    (algorithms W0 missing_gt_state) (heap W0 missing_gt_state)
                    (log W0 missing_gt_state ++ [])).
Proof.
  apply (missing_ground_truth_raises_key_error W0 cfg0 [0; 1] "PTS" None false None
           missing_gt_state [0; 1] [] 1 (img0 [("other", 6%Z)])).
  - reflexivity.
  - reflexivity.
  - intros q [<-|[<-|[]]]; discriminate.
  - right. left. reflexivity.
  - reflexivity.
  - reflexivity.
Defined.

(** X3: when no landmark of the batch's first image matches
    ['*{bb_group}*'], generating the perturbations raises nothing: it
    returns no key, sets [n_perturbations] to 0, changes no image, and warns
    exactly when [n_perturbations] was not already 0. *)
Theorem no_matching_box_resets_n_perturbations W cfg group bb_group b s p0 i0 :
  hd_error b = Some p0 -> nth_error (heap W s) p0 = Some i0 ->
  keys_matching (landmarks i0) ("*" ++ bb_group ++ "*")%string = [] ->
  generate_perturbations W cfg group bb_group b s =
    Ok [] (mkState W (reference_shape W s) 0 (algorithms W s) (heap W s)
             (log W s ++ (if Nat.eqb 0 (n_perturbations W s) then []
                          else [EWarnPert (n_perturbations W s) 0]))).
Proof.
  intros Hb Hi Hk. unfold generate_perturbations.
  apply (bind_ok_intro W _ _ _ [] s); [rewrite <- Hk; exact (bb_keys_intro b bb_group s p0 i0 Hb Hi)|].
  cbv beta zeta. apply (bind_ok_intro W _ _ _ s s); [reflexivity|]. cbv beta. simpl List.length.
  destruct (Nat.eqb_spec 0 (n_perturbations W s)) as [Heq|Hne]; simpl.
  - apply (bind_ok_intro W _ _ _ tt s); [reflexivity|].
    rewrite (bb_keys_intro b bb_group s p0 i0 Hb Hi), Hk.
    destruct s as [r n al h l]. simpl in *. rewrite app_nil_r, <- Heq. reflexivity.
  - destruct (Nat.eqb_spec (n_perturbations W s) 0) as [E|_]; [lia|]. simpl.
    apply (bind_ok_intro W _ _ _ tt
             (mkState W (reference_shape W s) 0 (algorithms W s) (heap W s)
                (log W s ++ [EWarnPert (n_perturbations W s) 0]))); [reflexivity|].
    match goal with
    | |- context [bb_keys W b bb_group ?st] => rewrite (bb_keys_intro b bb_group st p0 i0 Hb Hi)
    end.
    rewrite Hk. reflexivity.
Qed.

Lemma no_matching_box_resets_n_perturbations_witness :
  generate_perturbations W0 cfg0 "PTS" "zz" [0] boxes_state =
    Ok [] (mkState W0 (reference_shape W0 boxes_state) 0 (algorithms W0 boxes_state)
             (heap W0 boxes_state)
             (log W0 boxes_state ++ (if Nat.eqb 0 (n_perturbations W0 boxes_state) then []
                                     else [EWarnPert (n_perturbations W0 boxes_state) 0]))).
Proof.
  apply (no_matching_box_resets_n_perturbations W0 cfg0 "PTS" "zz" [0] boxes_state 0 boxes_image).
  - reflexivity.
  - reflexivity.
  - vm_compute. reflexivity.
Defined.

(** ** The stages *)

Lemma length_list_set {A} (xs : list A) j v : List.length (list_set xs j v) = List.length xs.
Proof.
  revert j. induction xs as [|x xs IH]; intro j; [reflexivity|]. destruct j; simpl; [reflexivity|].
  rewrite IH. reflexivity.
Qed.

Section AlgCount.

Variable W : World.
Variable n : nat.

Local Notation AI := (fun s : state W => List.length (algorithms W s) = n).

Lemma al_pure {A} (m : M W A) :
  (forall s, algorithms W (res_state (m s)) = algorithms W s) -> keeps AI m.
Proof. intros H s Hs. simpl. rewrite H. exact Hs. Qed.

Lemma al_ret {A} (a : A) : keeps AI (ret W a).
Proof. apply al_pure. reflexivity. Qed.

Lemma al_of_option {A} e (o : option A) : keeps AI (of_option W e o).
Proof. apply al_pure. intro s. destruct o; reflexivity. Qed.

Lemma al_load p : keeps AI (load W p).
Proof. apply al_pure. intro s. unfold load. destruct (nth_error _ _); reflexivity. Qed.

Lemma al_lms i k : keeps AI (lms W i k).
Proof. apply al_of_option. Qed.

Lemma al_first {A} (xs : list A) : keeps AI (first W xs).
Proof. apply al_of_option. Qed.

Lemma al_get : keeps AI (get W).
Proof. apply al_pure. reflexivity. Qed.

Lemma al_emit e : keeps AI (emit W e).
Proof. apply al_pure. reflexivity. Qed.

Lemma al_alloc i : keeps AI (alloc W i).
Proof. apply al_pure. reflexivity. Qed.

Lemma al_set_reference_shape r : keeps AI (set_reference_shape W r).
Proof. apply al_pure. reflexivity. Qed.

Lemma al_set_n_perturbations k : keeps AI (set_n_perturbations W k).
Proof. apply al_pure. reflexivity. Qed.

Lemma al_set_landmark p k v : keeps AI (set_landmark W p k v).
Proof. unfold set_landmark. apply keeps_bind; [apply al_load|]. intros i s Hs. exact Hs. Qed.

Lemma al_set_algorithm j a : keeps AI (set_algorithm W j a).
Proof. intros s Hs. simpl. rewrite length_list_set. exact Hs. Qed.

Create HintDb stages.
Hint Resolve al_ret al_of_option al_load al_lms al_first al_get al_emit al_alloc
  al_set_reference_shape al_set_n_perturbations al_set_landmark al_set_algorithm : stages.

Ltac kpa :=
  repeat first
    [ progress (intros)
    | progress (cbv zeta)
    | solve [auto with stages]
    | apply keeps_mapM
    | apply keeps_forM
    | apply keeps_bind
    | match goal with |- keeps _ (match ?x with _ => _ end) => destruct x end ].

Lemma al_scale_loop cfg inc ref group imgs keys js :
  forall fi cs, keeps AI (scale_loop W cfg inc ref group imgs keys js fi cs).
Proof.
  induction js as [|j js IH]; intros fi cs; simpl; [kpa|].
  apply keeps_bind; [|intro; apply IH].
  unfold scale_step, run_stage. kpa.
Qed.

Lemma al_train_batches cfg group bbg bs inc k batches :
  keeps AI (train_batches W cfg group bbg bs inc k batches).
Proof.
  revert group inc k. induction batches as [|b batches IH]; intros group inc k; simpl; [kpa|].
  apply keeps_bind; [|intro; apply IH].
  unfold train_batch, resolve_group, ensure_reference_shape, rescale_images_to_reference_shape,
    resolve_bb_group, generate_perturbations, perturb_image, bb_keys.
  apply keeps_bind; [kpa|]. intro.
  apply keeps_bind; [kpa|]. intro.
  apply keeps_bind; [kpa|]. intro.
  apply keeps_bind; [kpa|]. intro.
  apply keeps_bind; [kpa|]. intro.
  apply keeps_bind; [kpa|]. intro.
  apply keeps_bind; [apply al_scale_loop | intro; kpa].
Qed.

End AlgCount.

(** X4: the constructor builds one stage per scale ([_setup_algorithms]),
    and neither the training it runs nor a later [increment] adds or drops
    a stage, whether the run returns or raises. *)
Theorem one_stage_per_scale W cfg setup heap0 images group bbg ref0 n0 bs :
  List.length (algorithms W (res_state
    (SupervisedDescentFitter W cfg setup heap0 images group bbg ref0 n0 bs))) = n_scales W cfg /\
  (forall s, List.length (algorithms W (res_state (increment W cfg images group bbg bs s))) =
             List.length (algorithms W s)).
Proof.
  split.
  - unfold SupervisedDescentFitter, train_impl.
    apply (al_train_batches W (n_scales W cfg)). simpl. rewrite length_map, length_seq. reflexivity.
  - intro s. unfold increment, train_impl. apply (al_train_batches W). reflexivity.
Qed.

(** ** The ground-truth boxes *)

Lemma set_landmark_ok {W} p k v s u s' :
  set_landmark W p k v s = Ok u s' ->
  exists i, nth_error (heap W s) p = Some i /\
    s' = mkState W (reference_shape W s) (n_perturbations W s) (algorithms W s)
           (list_set (heap W s) p (mkImage (pixels i) (dict_set (landmarks i) k v))) (log W s).
Proof.
  intro H. unfold set_landmark in H. apply bind_ok in H as (i & s1 & H1 & H).
  unfold load in H1. apply of_option_ok in H1 as [Hi ->].
  cbv beta in H. injection H as _ <-. eauto.
Qed.

Lemma dict_get_set_same {S} (l : list (string * S)) k v : dict_get (dict_set l k v) k = Some v.
Proof.
  induction l as [|[k' v'] l IH]; simpl; [rewrite String.eqb_refl; reflexivity|].
  destruct (String.eqb_spec k k'); simpl; [rewrite String.eqb_refl; reflexivity|].
  destruct (String.eqb_spec k k'); [contradiction | exact IH].
Qed.

Lemma gt_boxes_loop {W} group ps s u s' :
  NoDup ps ->
  forM_ W ps (fun p =>
    i <- load W p ;;
    gt_s <- lms W i group ;;
    let perturb_bbox_group := ("__gt_bb_" ++ "0")%string in
    set_landmark W p perturb_bbox_group (bounding_box W gt_s)) s = Ok u s' ->
  reference_shape W s' = reference_shape W s /\ n_perturbations W s' = n_perturbations W s /\
  algorithms W s' = algorithms W s /\ log W s' = log W s /\
  (forall q, ~ In q ps -> nth_error (heap W s') q = nth_error (heap W s) q) /\
  (forall q, In q ps -> exists i gt, nth_error (heap W s) q = Some i /\
     dict_get (landmarks i) group = Some gt /\
     nth_error (heap W s') q =
       Some (mkImage (pixels i) (dict_set (landmarks i) "__gt_bb_0" (bounding_box W gt)))).
Proof.
  intro Hnd. revert s. induction Hnd as [|p ps Hp Hnd IH]; intros s H; simpl in H.
  - cbv [ret] in H. injection H as _ <-. repeat split; auto. intros q [].
  - apply bind_ok in H as (u1 & s1 & H1 & H).
    apply bind_ok in H1 as (i & s2 & H2 & H1). unfold load in H2.
    apply of_option_ok in H2 as [Hi ->].
    apply bind_ok in H1 as (gt & s3 & H3 & H1). apply lms_ok in H3 as [Hg ->].
    cbv zeta in H1. apply set_landmark_ok in H1 as (i' & Hi' & ->). rewrite Hi in Hi'.
    injection Hi' as <-.
    destruct (IH _ H) as (R & N & A & L & Hout & Hin). simpl in R, N, A, L, Hout, Hin.
    split; [exact R|]. split; [exact N|]. split; [exact A|]. split; [exact L|]. split.
    + intros q Hq. rewrite Hout by (intro; apply Hq; right; assumption).
      rewrite nth_error_list_set. destruct (Nat.eqb_spec p q); [|reflexivity].
      exfalso. apply Hq. left. assumption.
    + intros q [<-|Hq].
      * exists i, gt. split; [exact Hi|]. split; [exact Hg|].
        rewrite Hout by exact Hp. rewrite nth_error_list_set, Nat.eqb_refl, Hi. reflexivity.
      * destruct (Hin q Hq) as (i2 & gt2 & E1 & E2 & E3).
        assert (p <> q) by (intro; subst; contradiction).
        rewrite nth_error_list_set in E1. destruct (Nat.eqb_spec p q); [contradiction|].
        exists i2, gt2. auto.
Qed.

(** X5: without a bounding-box group, every image of the batch gets the
    bounding box of its ground-truth shape under ['__gt_bb_0'] (replacing
    any box already there), the namespace becomes ['__gt_bb_'], and nothing
    else changes: the other images, the other landmarks, the fitter's
    fields and the log. *)
Theorem gt_box_attached_to_batch_images W group ps s bb s' :
  NoDup ps ->
  resolve_bb_group W None group ps s = Ok bb s' ->
  bb = "__gt_bb_" /\
  reference_shape W s' = reference_shape W s /\ n_perturbations W s' = n_perturbations W s /\
  algorithms W s' = algorithms W s /\ log W s' = log W s /\
  (forall q, ~ In q ps -> nth_error (heap W s') q = nth_error (heap W s) q) /\
  (forall q, In q ps -> exists i gt, nth_error (heap W s) q = Some i /\
     dict_get (landmarks i) group = Some gt /\
     nth_error (heap W s') q =
       Some (mkImage (pixels i) (dict_set (landmarks i) "__gt_bb_0" (bounding_box W gt))) /\
     lm_of (heap W s') q "__gt_bb_0" = Some (bounding_box W gt)).
Proof.
  intros Hnd H. unfold resolve_bb_group in H. cbv zeta in H.
  apply bind_ok in H as (u & s1 & H1 & H). cbv [ret] in H. injection H as <- <-.
  destruct (gt_boxes_loop group ps s u s1 Hnd H1) as (R & N & A & L & Hout & Hin).
  repeat (split; [assumption|]). split; [reflexivity|].
  repeat (split; [assumption|]).
  intros q Hq. destruct (Hin q Hq) as (i & gt & E1 & E2 & E3). exists i, gt.
  split; [exact E1|]. split; [exact E2|]. split; [exact E3|].
  unfold lm_of. rewrite E3. apply dict_get_set_same.
Qed.

Lemma gt_box_attached_to_batch_images_witness :
  exists bb s', resolve_bb_group W0 None "PTS" [0; 1] start_two = Ok bb s' /\
  bb = "__gt_bb_" /\
  reference_shape W0 s' = reference_shape W0 start_two /\
  n_perturbations W0 s' = n_perturbations W0 start_two /\
  algorithms W0 s' = algorithms W0 start_two /\ log W0 s' = log W0 start_two /\
  (forall q, ~ In q [0; 1] -> nth_error (heap W0 s') q = nth_error (heap W0 start_two) q) /\
  (forall q, In q [0; 1] -> exists i gt, nth_error (heap W0 start_two) q = Some i /\
     dict_get (landmarks i) "PTS" = Some gt /\
     nth_error (heap W0 s') q =
       Some (mkImage (pixels i) (dict_set (landmarks i) "__gt_bb_0" (bounding_box W0 gt))) /\
     lm_of (heap W0 s') q "__gt_bb_0" = Some (bounding_box W0 gt)).
Proof.
  pose proof (ok_value W0 (resolve_bb_group W0 None "PTS" [0; 1] start_two) ""
                ltac:(vm_compute; reflexivity)) as E.
  do 2 eexists. split; [exact E|].
  refine (gt_box_attached_to_batch_images W0 "PTS" [0; 1] start_two _ _ _ E).
  repeat constructor; simpl; intuition discriminate.
Defined.

(** ** The keys of the perturbations *)

Lemma fnmatch_star_cons p s :
  fnmatch (String "*" p) s =
    fnmatch p s || match s with EmptyString => false | String _ s' => fnmatch (String "*" p) s' end.
Proof. destruct s; reflexivity. Qed.

Lemma fnmatch_star_app p x s : fnmatch p s = true -> fnmatch (String "*" p) (x ++ s) = true.
Proof.
  intro H. induction x as [|c x IH]; cbn [String.append]; rewrite fnmatch_star_cons.
  - rewrite H. reflexivity.
  - rewrite IH. apply orb_true_r.
Qed.

Lemma fnmatch_star_any s : fnmatch "*" s = true.
Proof.
  induction s as [|c s IH]; rewrite fnmatch_star_cons; [reflexivity|]. rewrite IH. apply orb_true_r.
Qed.

Lemma fnmatch_literal_app p q s : literal p = true -> fnmatch (p ++ q) (p ++ s) = fnmatch q s.
Proof.
  induction p as [|c p IH]; intro Hl; [reflexivity|]. cbn [literal] in Hl.
  apply andb_prop in Hl as [Hl Hp]. apply andb_prop in Hl as [Hl _].
  apply andb_prop in Hl as [H1 H2]. apply negb_true_iff in H1, H2.
  cbn [String.append fnmatch]. rewrite H1, H2, Ascii.eqb_refl. simpl. apply IH. exact Hp.
Qed.

(** a name containing the literal [p] matches ['*{p}*'] *)
Lemma fnmatch_contains p x y : literal p = true -> fnmatch ("*" ++ p ++ "*") (x ++ p ++ y) = true.
Proof.
  intro Hl. apply fnmatch_star_app. rewrite fnmatch_literal_app by exact Hl. apply fnmatch_star_any.
Qed.

Lemma uint_to_string_inj d d' : uint_to_string d = uint_to_string d' -> d = d'.
Proof.
  revert d'. induction d; intros [] H; simpl in H; try discriminate; try reflexivity;
    injection H as H; f_equal; auto.
Qed.

Lemma str_of_nat_inj i j : str_of_nat i = str_of_nat j -> i = j.
Proof. intro H. apply Unsigned.to_uint_inj, uint_to_string_inj. exact H. Qed.

Lemma append_cancel_l (p a b : string) : (p ++ a = p ++ b)%string -> a = b.
Proof. induction p as [|c p IH]; simpl; intro H; [exact H | injection H; auto]. Qed.

Lemma perturb_key_inj bb i j : perturb_key bb i = perturb_key bb j -> i = j.
Proof.
  unfold perturb_key. intro H. apply append_cancel_l in H. injection H as H.
  apply str_of_nat_inj. exact H.
Qed.

Lemma perturb_key_matches bb j : literal bb = true ->
  fnmatch ("*" ++ bb ++ "*") (perturb_key bb j) = true.
Proof. intro Hl. exact (fnmatch_contains bb "" ("_" ++ str_of_nat j) Hl). Qed.

Lemma NoDup_map_perturb_key bb js : NoDup js -> NoDup (map (perturb_key bb) js).
Proof.
  induction 1 as [|j js Hj Hnd IH]; simpl; constructor; [|exact IH].
  intro Hin. apply in_map_iff in Hin as (j' & E & Hj'). apply perturb_key_inj in E. subst. contradiction.
Qed.

(** X6: for a bounding-box group without the characters [*], [?] and [[],
    every key ['{bb_group}_{j}'] the code writes for a perturbation matches
    the pattern ['*{bb_group}*'] it re-grabs the keys with, and different
    [j] give different keys. *)
Theorem perturbation_keys_found_and_distinct bb i j :
  literal bb = true ->
  keys_matching [(perturb_key bb j, tt)] ("*" ++ bb ++ "*") = [perturb_key bb j] /\
  (perturb_key bb i = perturb_key bb j -> i = j).
Proof.
  intro Hl. split.
  - unfold keys_matching. cbn [map fst filter]. rewrite (perturb_key_matches bb j Hl). reflexivity.
  - apply perturb_key_inj.
Qed.

Lemma perturbation_keys_found_and_distinct_witness :
  literal "bb" = true /\
  keys_matching [(perturb_key "bb" 12, tt)] ("*" ++ "bb" ++ "*") = [perturb_key "bb" 12] /\
  (perturb_key "bb" 3 = perturb_key "bb" 12 -> 3 = 12).
Proof.
  split; [reflexivity|]. exact (perturbation_keys_found_and_distinct "bb" 3 12 eq_refl).
Defined.

Lemma dict_set_fresh {S} (l : list (string * S)) k v :
  ~ In k (map fst l) -> dict_set l k v = l ++ [(k, v)].
Proof.
  induction l as [|[k' v'] l IH]; intro Hk; [reflexivity|]. simpl in Hk |- *.
  destruct (String.eqb_spec k k') as [->|]; [exfalso; apply Hk; left; reflexivity|].
  rewrite IH by tauto. reflexivity.
Qed.

Lemma not_in_of_match {S} (l : list (string * S)) g k :
  keys_matching l g = [] -> fnmatch g k = true -> ~ In k (map fst l).
Proof.
  unfold keys_matching. intros H Hk Hin.
  assert (In k (filter (fnmatch g) (map fst l))) as Hf by (apply filter_In; auto).
  rewrite H in Hf. exact Hf.
Qed.

Lemma filter_all {A} (f : A -> bool) xs : (forall x, In x xs -> f x = true) -> filter f xs = xs.
Proof.
  induction xs as [|x xs IH]; intro H; [reflexivity|]. simpl. rewrite H by (left; reflexivity).
  rewrite IH by (intros y Hy; apply H; right; exact Hy). reflexivity.
Qed.

(** the keys of the image object [p] *)
Local Notation keys_at W s p :=
  (option_map (fun i => map fst (landmarks i)) (nth_error (heap W s) p)).

Lemma perturb_keys_loop {W} cfg group bb_group seed_key p js : forall s u s' K,
  NoDup (map (perturb_key bb_group) js) ->
  (forall j, In j js -> ~ In (perturb_key bb_group j) K) ->
  keys_at W s p = Some K ->
  forM_ W js (fun j =>
    i <- load W p ;;
    gt <- lms W i group ;;
    let gt_s := bounding_box W gt in
    bb <- lms W i seed_key ;;
    let p_s := perturb_fn W cfg gt_s bb in
    emit W (EPerturb gt_s bb) ;;;
    let perturb_bbox_group := perturb_key bb_group j in
    set_landmark W p perturb_bbox_group p_s) s = Ok u s' ->
  keys_at W s' p = Some (K ++ map (perturb_key bb_group) js) /\
  n_perturbations W s' = n_perturbations W s.
Proof.
  induction js as [|j js IH]; intros s u s' K Hnd Hfr HK H; simpl in H.
  - cbv [ret] in H. injection H as _ <-. rewrite app_nil_r. auto.
  - apply bind_ok in H as (u1 & s1 & H1 & H). simpl in Hnd. inversion Hnd as [|k ks Hj Hnd']; subst.
    apply bind_ok in H1 as (i & s2 & H2 & H1). unfold load in H2. apply of_option_ok in H2 as [Hi ->].
    apply bind_ok in H1 as (gt & s3 & H3 & H1). apply lms_ok in H3 as [_ ->]. cbv beta zeta in H1.
    apply bind_ok in H1 as (bb & s4 & H4 & H1). apply lms_ok in H4 as [_ ->].
    apply bind_ok in H1 as (u2 & s5 & H5 & H1). cbv [emit] in H5. injection H5 as _ <-.
    apply set_landmark_ok in H1 as (i2 & Hi2 & ->). simpl in Hi2. rewrite Hi in Hi2.
    injection Hi2 as <-. rewrite Hi in HK. injection HK as HK.
    assert (Hk1 : keys_at W (mkState W (reference_shape W s) (n_perturbations W s) (algorithms W s)
        (list_set (heap W s) p (mkImage (pixels i)
           (dict_set (landmarks i) (perturb_key bb_group j)
              (perturb_fn W cfg (bounding_box W gt) bb)))) (log W s ++ [EPerturb (bounding_box W gt) bb])) p
        = Some (K ++ [perturb_key bb_group j])).
    { simpl. rewrite nth_error_list_set, Nat.eqb_refl, Hi. simpl.
      rewrite dict_set_fresh by (rewrite HK; apply Hfr; left; reflexivity).
      rewrite map_app, HK. reflexivity. }
    assert (Hfr' : forall j', In j' js -> ~ In (perturb_key bb_group j') (K ++ [perturb_key bb_group j])).
    { intros j' Hj' Hin. apply in_app_or in Hin as [Hin | [Hin | []]].
      - exact (Hfr j' (or_intror Hj') Hin).
      - apply Hj. rewrite Hin. apply in_map. exact Hj'. }
    destruct (IH _ _ _ _ Hnd' Hfr' Hk1 H) as [E N].
    split; [rewrite E, <- app_assoc; reflexivity | exact N].
Qed.

Section PointFrame.

Variable W : World.
Variables (q : nat) (X : option (image (pix_t W) (shape_t W))) (n : nat).

(** the image object [q] and [n_perturbations] are left alone *)
Local Notation PI := (fun s : state W => nth_error (heap W s) q = X /\ n_perturbations W s = n).

Lemma pf_load p : keeps PI (load W p).
Proof. apply keeps_pure. intro s. unfold load. destruct (nth_error (heap W s) p); reflexivity. Qed.

Lemma pf_lms i k : keeps PI (lms W i k).
Proof. apply keeps_pure. intro s. unfold lms. destruct (dict_get (landmarks i) k); reflexivity. Qed.

Lemma pf_get : keeps PI (get W).
Proof. apply keeps_pure. reflexivity. Qed.

Lemma pf_emit e : keeps PI (emit W e).
Proof. intros s Hs. exact Hs. Qed.

Lemma pf_set_landmark p k v : p <> q -> keeps PI (set_landmark W p k v).
Proof.
  intro Hpq. unfold set_landmark. apply keeps_bind; [apply pf_load|]. intros i s [Hq Hn].
  simpl. rewrite nth_error_list_set. destruct (Nat.eqb_spec p q); [contradiction|]. auto.
Qed.

Lemma pf_perturb_image cfg group bb_group seed_key p :
  p <> q -> keeps PI (perturb_image W cfg group bb_group seed_key p).
Proof.
  intro Hpq. unfold perturb_image. apply keeps_bind; [apply pf_get|]. intro s0.
  apply keeps_forM. intro j. apply keeps_bind; [apply pf_load|]. intro i.
  apply keeps_bind; [apply pf_lms|]. intro gt. cbv beta zeta.
  apply keeps_bind; [apply pf_lms|]. intro bb.
  apply keeps_bind; [apply pf_emit|]. intros _. apply pf_set_landmark. exact Hpq.
Qed.

Lemma pf_perturb_images cfg group bb_group seed_key ps :
  ~ In q ps -> keeps PI (forM_ W ps (perturb_image W cfg group bb_group seed_key)).
Proof.
  intro Hq. apply keeps_forM_in. intros p Hp. apply pf_perturb_image.
  intros ->. contradiction.
Qed.

End PointFrame.

(** X7: without a bounding-box group, when the first image of the batch has
    no key matching ['*__gt_bb_*'] yet, the keys returned for the batch are
    ['__gt_bb_0'] followed by ['__gt_bb__1'], ..., ['__gt_bb__{n-1}'] for
    [n = n_perturbations]: they are pairwise distinct and
    [n_perturbations] keeps its value. *)
Theorem default_namespace_keys W cfg group p0 rest i0 s ks s' :
  NoDup (p0 :: rest) ->
  nth_error (heap W s) p0 = Some i0 ->
  keys_matching (landmarks i0) "*__gt_bb_*" = [] ->
  (bb <- resolve_bb_group W None group (p0 :: rest) ;;
   generate_perturbations W cfg group bb (p0 :: rest)) s = Ok ks s' ->
  ks = "__gt_bb_0" :: map (perturb_key "__gt_bb_") (seq 1 (n_perturbations W s - 1)) /\
  NoDup ks /\ n_perturbations W s' = n_perturbations W s.
Proof.
  intros Hnd Hi0 Hk H. change "*__gt_bb_*" with ("*" ++ "__gt_bb_" ++ "*")%string in Hk.
  assert (Hm : forall j, fnmatch ("*" ++ "__gt_bb_" ++ "*") (perturb_key "__gt_bb_" j) = true)
    by (intro j; apply perturb_key_matches; reflexivity).
  assert (Hne : forall j, perturb_key "__gt_bb_" j <> "__gt_bb_0")
    by (intros j E; unfold perturb_key in E; simpl in E; discriminate E).
  assert (Hfr0 : ~ In "__gt_bb_0" (map fst (landmarks i0)))
    by (apply (not_in_of_match _ _ _ Hk); reflexivity).
  apply bind_ok in H as (bb & s1 & H1 & H).
  unfold resolve_bb_group in H1. cbv zeta in H1.
  apply bind_ok in H1 as (u & s2 & H2 & H1). cbv [ret] in H1. injection H1 as <- <-.
  destruct (gt_boxes_loop group (p0 :: rest) s u s2 Hnd H2) as (_ & N2 & _ & _ & _ & Hin).
  destruct (Hin p0 (or_introl eq_refl)) as (i & gt & E1 & _ & E3).
  rewrite Hi0 in E1. injection E1 as <-.
  rewrite dict_set_fresh in E3 by exact Hfr0.
  unfold generate_perturbations in H.
  apply bind_ok in H as (keys & s3 & H3 & H). apply bb_keys_ok in H3 as [-> (p0' & i1 & Hb & Hi1 & ->)].
  simpl in Hb. injection Hb as <-. rewrite E3 in Hi1. injection Hi1 as <-.
  assert (Ek : keys_matching (landmarks i0 ++ [("__gt_bb_0", bounding_box W gt)])
                 ("*" ++ "__gt_bb_" ++ "*") = ["__gt_bb_0"]).
  { unfold keys_matching in Hk |- *. rewrite map_app, filter_app, Hk. reflexivity. }
  cbn [landmarks] in H. rewrite Ek in H. cbv beta zeta in H.
  apply bind_ok in H as (s4 & s5 & H4 & H). cbv [get] in H4. injection H4 as <- <-.
  cbn [List.length Nat.eqb] in H.
  apply bind_ok in H as (u5 & s6 & H6 & H). cbn [forM_] in H6.
  apply bind_ok in H6 as (u7 & s7 & H7 & H8).
  unfold perturb_image in H7. apply bind_ok in H7 as (s8 & s9 & H9 & H7).
  cbv [get] in H9. injection H9 as <- <-.
  set (js := seq 1 (n_perturbations W s2 - 1)) in H7.
  assert (Hjs : NoDup (map (perturb_key "__gt_bb_") js))
    by (apply NoDup_map_perturb_key, seq_NoDup).
  assert (HK : keys_at W s2 p0 = Some (map fst (landmarks i0) ++ ["__gt_bb_0"]))
    by (rewrite E3; simpl; rewrite map_app; reflexivity).
  assert (Hfr : forall j, In j js ->
            ~ In (perturb_key "__gt_bb_" j) (map fst (landmarks i0) ++ ["__gt_bb_0"])).
  { intros j _ Hin'. apply in_app_or in Hin' as [Hin' | [Hin' | []]].
    - exact (not_in_of_match _ _ _ Hk (Hm j) Hin').
    - exact (Hne j (eq_sym Hin')). }
  destruct (perturb_keys_loop cfg group "__gt_bb_" "__gt_bb_0" p0 js s2 u7 s7 _ Hjs Hfr HK H7)
    as [K7 N7].
  assert (Hr : ~ In p0 rest) by (inversion Hnd; assumption).
  pose proof (pf_perturb_images W p0 (nth_error (heap W s7) p0) (n_perturbations W s7) cfg group
                "__gt_bb_" "__gt_bb_0" rest Hr s7 (conj eq_refl eq_refl)) as F.
  rewrite H8 in F. simpl in F. destruct F as [F6 N6].
  apply bb_keys_ok in H as [-> (p0' & i6 & Hb & Hi6 & ->)].
  simpl in Hb. injection Hb as <-. rewrite <- F6, Hi6 in K7. simpl in K7. injection K7 as K7.
  assert (Eks : keys_matching (landmarks i6) ("*" ++ "__gt_bb_" ++ "*") =
                "__gt_bb_0" :: map (perturb_key "__gt_bb_") js).
  { unfold keys_matching in Hk |- *. rewrite K7, !filter_app, Hk.
    rewrite (filter_all _ (map (perturb_key "__gt_bb_") js)) by (intros k Hk'; apply in_map_iff in Hk' as (j & <- & _); apply Hm).
    reflexivity. }
  rewrite Eks. split; [unfold js; rewrite N2; reflexivity|]. split.
  - constructor; [|exact Hjs]. intro Hin'. apply in_map_iff in Hin' as (j & E & _). exact (Hne j E).
  - rewrite N6, N7. exact N2.
Qed.

Lemma default_namespace_keys_witness :
  exists ks s',
  (bb <- resolve_bb_group W0 None "PTS" [0] ;; generate_perturbations W0 cfg0 "PTS" bb [0])
    start_one = Ok ks s' /\
  ks = "__gt_bb_0" :: map (perturb_key "__gt_bb_") (seq 1 (n_perturbations W0 start_one - 1)) /\
  NoDup ks /\ n_perturbations W0 s' = n_perturbations W0 start_one.
Proof.
  pose proof (ok_value W0
    ((bb <- resolve_bb_group W0 None "PTS" [0] ;; generate_perturbations W0 cfg0 "PTS" bb [0])
       start_one) [] eq_refl) as E.
  eexists; eexists. split; [exact E|].
  apply (default_namespace_keys W0 cfg0 "PTS" 0 [] (img0 [("PTS", 5%Z)]) start_one _ _).
  - constructor; [intros []|constructor].
  - reflexivity.
  - reflexivity.
  - exact E.
Defined.

(** ** What the stages receive *)

Lemma mapM_values {W A B C} (f : A -> M W B) (g : A -> C) (h : B -> C) xs s ys s' :
  (forall x s y s', f x s = Ok y s' -> g x = h y) -> mapM W f xs s = Ok ys s' -> map g xs = map h ys.
Proof.
  intro Hf. revert s ys s'. induction xs as [|x xs IH]; intros s ys s' H; simpl in H.
  - cbv [ret] in H. injection H as <- _. reflexivity.
  - apply bind_ok in H as (y & s1 & H1 & H). apply bind_ok in H as (ys' & s2 & H2 & H).
    cbv [ret] in H. injection H as <- _. simpl. f_equal; [exact (Hf _ _ _ _ H1) | exact (IH _ _ _ H2)].
Qed.

(** the shapes under [k] of the images, [None] where there is none *)
Local Notation shapes_of k imgs := (map (fun i => dict_get (landmarks i) k) imgs).

(** the estimates aligned with the boxes of the keys, per image *)
Local Notation estimates_of W ref keys imgs :=
  (map (fun i => map (fun k => option_map (align_shape_with_bounding_box W ref)
                                          (dict_get (landmarks i) k)) keys) imgs).

Lemma scale_step_inputs {W} cfg inc ref group imgs keys j fi cs s r s' :
  scale_step W cfg inc ref group imgs keys j fi cs s = Ok r s' ->
  exists ev, log W s' = log W s ++ ev /\
    forall inc' j' imgs' gts cin cout, In (EStage inc' j' imgs' gts cin cout) ev ->
      inc' = inc /\ j' = j /\ shapes_of group imgs' = map Some gts /\
      (j = 0 -> exists c, cin = cs ++ c /\ estimates_of W ref keys imgs' = map (map Some) c).
Proof.
  intro H. unfold scale_step in H. cbv zeta in H.
  apply bind_ok in H as (f_j & s1 & H1 & H). apply of_option_ok in H1 as [_ ->].
  apply bind_ok in H as (rc & s2 & H2 & H).
  assert (s2 = s) as ->.
  { destruct j as [|j']; simpl in H2.
    - cbv [ret] in H2. injection H2 as _ <-. reflexivity.
    - apply bind_ok in H2 as (fp & s3 & H3 & H2). apply of_option_ok in H3 as [_ ->].
      cbv [ret] in H2. injection H2 as _ <-. reflexivity. }
  apply bind_ok in H as (fi1 & s3 & H3 & H). apply cond_emit_ok in H3 as (_ & _ & L3).
  apply bind_ok in H as (s_j & s4 & H4 & H). apply of_option_ok in H4 as [_ ->].
  apply bind_ok in H as (sc & s5 & H5 & H). apply cond_emit_ok in H5 as (_ & _ & L5).
  apply bind_ok in H as (gts & s6 & H6 & H).
  assert (Eg : shapes_of group sc = map Some gts).
  { eapply mapM_values; [|exact H6]. intros i s7 y s8 H7. apply lms_ok in H7 as [E _]. exact E. }
  assert (s6 = s5) as -> by
    (eapply mapM_read_state; [intros ? ? ? ? Hx; apply lms_ok in Hx; apply Hx | exact H6]).
  apply bind_ok in H as (cin & s7 & H7 & H).
  assert (Hcin : (j = 0 -> exists c, cin = cs ++ c /\ estimates_of W ref keys sc = map (map Some) c) /\
                 s7 = s5).
  { destruct (Nat.eqb_spec j 0) as [->|Hj].
    - apply bind_ok in H7 as (c & s8 & H8 & H7). cbv [ret] in H7. injection H7 as <- <-.
      split; [intros _; exists c; split; [reflexivity|]|].
      + eapply mapM_values; [|exact H8]. intros i s9 l s10 H9.
        eapply mapM_values; [|exact H9]. intros k s11 b s12 H11.
        apply bind_ok in H11 as (bb & s13 & H13 & H11). apply lms_ok in H13 as [E _].
        cbv [ret] in H11. injection H11 as <- _. rewrite E. reflexivity.
      + eapply mapM_read_state; [|exact H8]. intros i s9 l s10 H9.
        eapply mapM_read_state; [|exact H9]. intros k s11 b s12 H11.
        apply bind_ok in H11 as (bb & s13 & H13 & H11). apply lms_ok in H13 as [_ ->].
        cbv [ret] in H11. injection H11 as _ <-. reflexivity.
    - cbv [ret] in H7. injection H7 as _ <-. split; [intro; contradiction | reflexivity]. }
  destruct Hcin as (Hc0 & ->).
  apply bind_ok in H as (cout & s8 & H8 & H).
  apply run_stage_ok in H8 as (alg & _ & _ & L8).
  apply bind_ok in H as (cs2 & s9 & H9 & H). cbv [ret] in H. injection H as _ <-.
  assert (s9 = s8) as ->.
  { destruct (negb (Nat.eqb j (n_scales W cfg - 1))); simpl in H9.
    - apply bind_ok in H9 as (s_next & s10 & H10 & H9). apply of_option_ok in H10 as [_ ->].
      cbv [ret] in H9. injection H9 as _ <-. reflexivity.
    - cbv [ret] in H9. injection H9 as _ <-. reflexivity. }
  exists ((if rc then [EFeat j] else []) ++ (if scale_neq_one W s_j then [EScaleImgs j] else []) ++
          [EStage inc j sc gts cin cout]).
  split; [rewrite L8, L5, L3, <- !app_assoc; reflexivity|].
  intros inc' j' imgs' gts' cin' cout' Hin.
  apply in_app_or in Hin as [Hin | Hin];
    [destruct rc; simpl in Hin; [destruct Hin as [Hin|[]]; discriminate Hin | contradiction]|].
  apply in_app_or in Hin as [Hin | Hin];
    [destruct (scale_neq_one W s_j); simpl in Hin;
       [destruct Hin as [Hin|[]]; discriminate Hin | contradiction]|].
  destruct Hin as [Hin|[]]. injection Hin as <- <- <- <- <- <-. auto.
Qed.

Lemma scale_loop_inputs {W} cfg inc ref group imgs keys m :
  forall a fi cs s r s',
  (a = 0 -> cs = []) ->
  scale_loop W cfg inc ref group imgs keys (seq a m) fi cs s = Ok r s' ->
  exists ev, log W s' = log W s ++ ev /\
    forall inc' j imgs' gts cin cout, In (EStage inc' j imgs' gts cin cout) ev ->
      inc' = inc /\ a <= j < a + m /\ shapes_of group imgs' = map Some gts /\
      (j = 0 -> estimates_of W ref keys imgs' = map (map Some) cin).
Proof.
  induction m as [|m IH]; intros a fi cs s r s' Hcs H; simpl in H.
  - cbv [ret] in H. injection H as _ <-. exists []. rewrite app_nil_r.
    split; [reflexivity | intros ? ? ? ? ? ? []].
  - apply bind_ok in H as ([fi1 cs1] & s1 & H1 & H). simpl in H.
    destruct (scale_step_inputs _ _ _ _ _ _ _ _ _ _ _ _ H1) as (ev1 & L1 & P1).
    destruct (IH (S a) fi1 cs1 s1 r s' ltac:(discriminate) H) as (ev2 & L2 & P2).
    exists (ev1 ++ ev2). split; [rewrite L2, L1, app_assoc; reflexivity|].
    intros inc' j imgs' gts cin cout Hin. apply in_app_or in Hin as [Hin | Hin].
    + destruct (P1 _ _ _ _ _ _ Hin) as (-> & -> & Eg & Ec). split; [reflexivity|].
      split; [lia|]. split; [exact Eg|]. intro Ha. destruct (Ec Ha) as (c & -> & Ee).
      rewrite (Hcs Ha). exact Ee.
    + destruct (P2 _ _ _ _ _ _ Hin) as (-> & Hj & Eg & Ec). split; [reflexivity|].
      split; [lia|]. auto.
Qed.

(** X8: in the scale loop of a batch, every call of a stage's [train] or
    [increment] is made at one of the scales [0 .. n-1], with the batch's
    mode (train or increment), and receives as ground truth exactly the
    shapes under [group] of the images it receives, in the same order. *)
Theorem stages_receive_ground_truth_of_their_images W cfg inc ref group imgs keys n s r s' :
  scale_loop W cfg inc ref group imgs keys (seq 0 n) [] [] s = Ok r s' ->
  exists ev, log W s' = log W s ++ ev /\
    forall inc' j imgs' gts cin cout, In (EStage inc' j imgs' gts cin cout) ev ->
      inc' = inc /\ j < n /\ map (fun i => dict_get (landmarks i) group) imgs' = map Some gts.
Proof.
  intro H. destruct (scale_loop_inputs cfg inc ref group imgs keys n 0 [] [] s r s' (fun _ => eq_refl) H)
    as (ev & L & P).
  exists ev. split; [exact L|]. intros inc' j imgs' gts cin cout Hin.
  destruct (P _ _ _ _ _ _ Hin) as (-> & Hj & Eg & _). split; [reflexivity|]. split; [lia | exact Eg].
Qed.

(** X9: in the scale loop of a batch, the stage at scale 0 receives, for
    every image it receives and every bounding-box key, the reference shape
    aligned with that image's box under the key: one estimate per key, in
    the order of the keys. *)
Theorem first_stage_receives_aligned_estimates W cfg inc ref group imgs keys n s r s' :
  scale_loop W cfg inc ref group imgs keys (seq 0 n) [] [] s = Ok r s' ->
  exists ev, log W s' = log W s ++ ev /\
    forall inc' imgs' gts cin cout, In (EStage inc' 0 imgs' gts cin cout) ev ->
      map (fun i => map (fun k => option_map (align_shape_with_bounding_box W ref)
                                             (dict_get (landmarks i) k)) keys) imgs' =
      map (map Some) cin.
Proof.
  intro H. destruct (scale_loop_inputs cfg inc ref group imgs keys n 0 [] [] s r s' (fun _ => eq_refl) H)
    as (ev & L & P).
  exists ev. split; [exact L|]. intros inc' imgs' gts cin cout Hin.
  destruct (P _ _ _ _ _ _ Hin) as (_ & _ & _ & Ec). exact (Ec eq_refl).
Qed.

Lemma stages_receive_ground_truth_of_their_images_witness :
  exists r s',
    scale_loop W0 cfg0 false 5%Z "PTS" loop_imgs loop_keys (seq 0 (n_scales W0 cfg0)) [] []
      loop_state = Ok r s' /\
    exists ev, log W0 s' = log W0 loop_state ++ ev /\
      forall inc' j imgs' gts cin cout, In (EStage inc' j imgs' gts cin cout) ev ->
        inc' = false /\ j < n_scales W0 cfg0 /\
        map (fun i => dict_get (landmarks i) "PTS") imgs' = map Some gts.
Proof.
  pose proof (ok_value W0
                (scale_loop W0 cfg0 false 5%Z "PTS" loop_imgs loop_keys (seq 0 (n_scales W0 cfg0))
                   [] [] loop_state) [] ltac:(vm_compute; reflexivity)) as E.
  do 2 eexists. split; [exact E|].
  exact (stages_receive_ground_truth_of_their_images W0 cfg0 false 5%Z "PTS" loop_imgs loop_keys
           (n_scales W0 cfg0) loop_state _ _ E).
Defined.

Lemma first_stage_receives_aligned_estimates_witness :
  exists r s',
    scale_loop W0 cfg0 false 5%Z "PTS" loop_imgs loop_keys (seq 0 (n_scales W0 cfg0)) [] []
      loop_state = Ok r s' /\
    exists ev, log W0 s' = log W0 loop_state ++ ev /\
      forall inc' imgs' gts cin cout, In (EStage inc' 0 imgs' gts cin cout) ev ->
        map (fun i => map (fun k => option_map (align_shape_with_bounding_box W0 5%Z)
                                               (dict_get (landmarks i) k)) loop_keys) imgs' =
        map (map Some) cin.
Proof.
  pose proof (ok_value W0
                (scale_loop W0 cfg0 false 5%Z "PTS" loop_imgs loop_keys (seq 0 (n_scales W0 cfg0))
                   [] [] loop_state) [] ltac:(vm_compute; reflexivity)) as E.
  do 2 eexists. split; [exact E|].
  exact (first_stage_receives_aligned_estimates W0 cfg0 false 5%Z "PTS" loop_imgs loop_keys
           (n_scales W0 cfg0) loop_state _ _ E).
Defined.
